(** * Post50: feed ranking, tagging and voting logic of [app.py]

    A shallow embedding of the request handlers of [src/Post50/app.py]
    that carry the application's logic: hashtag extraction, tag
    normalisation on post submission and edit, the vote ledger, the
    derived score, the filter / sort / paginate pipeline of the two feed
    routes, comments, the deletion of a post, the profile page, and the
    accounts (registration and its checks, login, settings).

    Text is modelled as lists of characters of code points 0 to 255
    (Latin-1).  On these the character classes below are those of
    Python's [str] ([str.isspace], [str.lower], the class [\w] of [re]
    on [str] patterns) and those of SQLite ([lower()] and [LIKE], which
    fold the 26 ASCII letters only).  Text with code points from 256 on
    is outside the model. *)

From Stdlib Require Import ZArith Ascii String List Permutation Sorted Lia.
From stdpp Require Import base decidable option list sorting gmap strings.

Local Open Scope Z_scope.
Local Open Scope list_scope.

(** Python [str]: a sequence of characters. *)
Abbreviation str := (list ascii).

(** A Rocq string literal read as a [str]. *)
Definition chars (s : string) : str := list_ascii_of_string s.

(** ** Python string primitives *)

Module PyStr.

Definition code (c : ascii) : N := N_of_ascii c.

Definition in_range (lo hi : N) (c : ascii) : bool :=
  ((lo <=? code c) && (code c <=? hi))%N.

(** The characters [str.lower] changes: [A-Z], and the letters from
    192 to 222 (capital A with grave to capital thorn) without the
    multiplication sign 215. *)
Definition is_upper (c : ascii) : bool :=
  in_range 65 90 c || in_range 192 214 c || in_range 216 222 c.

(** The decimal digits [0-9]; Latin-1 has no other. *)
Definition is_digit (c : ascii) : bool := in_range 48 57 c.

(** [str.isspace], the whitespace of [str.strip]: TAB..CR, FS..US, the
    space, NEL (133) and the no-break space (160). *)
Definition is_space (c : ascii) : bool :=
  in_range 9 13 c || in_range 28 32 c
  || bool_decide (code c = 133%N) || bool_decide (code c = 160%N).

(** The class [\w] of a [str] pattern: the alphanumeric characters
    ([str.isalnum]) and the underscore.  Above ASCII these are the
    ordinal indicators 170 and 186, the superscripts 178, 179 and 185,
    the micro sign 181, the fractions 188..190 and the letters 192..255
    without the multiplication sign 215 and the division sign 247. *)
Definition is_word (c : ascii) : bool :=
  in_range 48 57 c || in_range 65 90 c || bool_decide (c = "_"%char)
  || in_range 97 122 c
  || bool_decide (code c = 170%N) || in_range 178 179 c
  || bool_decide (code c = 181%N) || in_range 185 186 c
  || in_range 188 190 c || in_range 192 214 c || in_range 216 246 c
  || in_range 248 255 c.

(** [c.lower()]: an uppercase letter moves 32 places up, every other
    character stays. *)
Definition lower_char (c : ascii) : ascii :=
  if is_upper c then ascii_of_N (code c + 32) else c.

(** [s.lower()] *)
Definition lower (s : str) : str := map lower_char s.

Fixpoint drop_while (f : ascii -> bool) (s : str) : str :=
  match s with
  | [] => []
  | c :: r => if f c then drop_while f r else s
  end.

Fixpoint take_while (f : ascii -> bool) (s : str) : str :=
  match s with
  | [] => []
  | c :: r => if f c then c :: take_while f r else []
  end.

(** [s.lstrip()], [s.rstrip()], [s.strip()] *)
Definition lstrip (s : str) : str := drop_while is_space s.
Definition rstrip (s : str) : str := rev (drop_while is_space (rev s)).
Definition strip (s : str) : str := rstrip (lstrip s).

(** [s.lstrip(ch)] for a one-character argument: every leading [ch]
    goes. *)
Definition lstrip_char (ch : ascii) (s : str) : str :=
  drop_while (fun c => bool_decide (c = ch)) s.

(** [s.split(sep)] for a one-character separator: never empty,
    [''.split(',') == ['']]. *)
Fixpoint split (sep : ascii) (s : str) : list str :=
  match s with
  | [] => [[]]
  | c :: r =>
      if bool_decide (c = sep) then [] :: split sep r
      else match split sep r with
           | h :: t => (c :: h) :: t
           | [] => [[c]]
           end
  end.

Definition digit_val (c : ascii) : option Z :=
  if is_digit c then Some (Z.of_N (code c) - 48) else None.

(** Decimal digits with single underscores between them, after the
    first digit has been read into [acc]. *)
Fixpoint int_digits (acc : Z) (s : str) : option Z :=
  match s with
  | [] => Some acc
  | c :: r =>
      if bool_decide (c = "_"%char) then
        match r with
        | d :: r' =>
            match digit_val d with
            | Some v => int_digits (acc * 10 + v) r'
            | None => None
            end
        | [] => None
        end
      else
        match digit_val c with
        | Some v => int_digits (acc * 10 + v) r
        | None => None
        end
  end.

(** The interpreter's default limit on the digits of a numeral
    ([sys.get_int_max_str_digits()]). *)
Definition max_str_digits : Z := 4300.

(** A numeral without sign: a digit first, and no more digits than the
    interpreter converts. *)
Definition int_unsigned (s : str) : option Z :=
  match s with
  | [] => None
  | c :: r =>
      match digit_val c with
      | Some v =>
          if Z.of_nat (length (List.filter is_digit s)) <=? max_str_digits
          then int_digits v r
          else None
      | None => None
      end
  end.

(** The whitespace [int] skips around a numeral: TAB..CR and the space,
    and above ASCII the two Unicode spaces NEL and no-break space.
    FS..US, which [str.strip] removes, are not among them. *)
Definition is_int_space (c : ascii) : bool :=
  in_range 9 13 c || bool_decide (code c = 32%N)
  || bool_decide (code c = 133%N) || bool_decide (code c = 160%N).

(** [int(s)] on a [str]: surrounding whitespace, an optional sign and
    base-10 digits; [None] stands for the [ValueError]. *)
Definition int (s : str) : option Z :=
  match rev (drop_while is_int_space (rev (drop_while is_int_space s))) with
  | c :: r =>
      if bool_decide (c = "+"%char) then int_unsigned r
      else if bool_decide (c = "-"%char) then Z.opp <$> int_unsigned r
      else int_unsigned (c :: r)
  | [] => None
  end.

End PyStr.

(** ** Hashtag extraction *)

(** [HASHTAG_REGEX = re.compile(r"(?<!&)#(\w+)")] tried at one position:
    [prev] is the character before the position, if any.  On success the
    result is group 1 and the text after the match. *)
Definition hashtag_match (prev : option ascii) (s : str) : option (str * str) :=
  match s with
  | c :: r =>
      if bool_decide (c = "#"%char) && negb (bool_decide (prev = Some "&"%char)) then
        match PyStr.take_while PyStr.is_word r with
        | [] => None
        | w => Some (w, PyStr.drop_while PyStr.is_word r)
        end
      else None
  | [] => None
  end.

(** [HASHTAG_REGEX.finditer]: leftmost matches, scanning left to right
    and resuming after each match; the list holds group 1 of each. *)
Fixpoint finditer_from (fuel : nat) (prev : option ascii) (s : str) : list str :=
  match fuel with
  | O => []
  | S fuel' =>
      match s with
      | [] => []
      | c :: r =>
          match hashtag_match prev s with
          | Some (w, rest) => w :: finditer_from fuel' (last w) rest
          | None => finditer_from fuel' (Some c) r
          end
      end
  end.

Definition finditer (s : str) : list str :=
  finditer_from (length s) None s.

(** [extract_hashtags(text)] *)
Definition extract_hashtags (text : str) : gset str :=
  match text with
  | [] => ∅
  | _ => list_to_set (map PyStr.lower (finditer text))
  end.

(** ** Data model: the tables of the relational store *)

Module User.
Record t := mk { id : Z; username : str; email : str }.
End User.

Module Post.
Record t := mk {
  id : Z;
  title : str;
  content : str;
  image_path : option str;
  created_at : Z;
  updated_at : Z;
  author_id : Z
}.
#[global] Instance eq_dec : EqDecision t.
Proof. solve_decision. Defined.
End Post.

Module Tag.
Record t := mk { id : Z; name : str }.
End Tag.

Module Vote.
Record t := mk { id : Z; value : Z; user_id : Z; post_id : Z }.
#[global] Instance eq_dec : EqDecision t.
Proof. solve_decision. Defined.
Definition set_value (x : Z) (v : t) : t :=
  mk (id v) x (user_id v) (post_id v).
End Vote.

(** The store: one list of rows per table, in row order.  [post_tags]
    is the association table of (post id, tag id) pairs. *)
Record DB := mkDB {
  users : list User.t;
  posts : list Post.t;
  tags : list Tag.t;
  post_tags : list (Z * Z);
  votes : list Vote.t
}.

Definition with_votes (db : DB) (vs : list Vote.t) : DB :=
  mkDB (users db) (posts db) (tags db) (post_tags db) vs.

(** The id an integer primary key gets on insert: one above the largest
    id of the table. *)
Definition next_id (ids : list Z) : Z := 1 + foldr Z.max 0 ids.

(** [Post.query.get(post_id)] *)
Definition get_post (db : DB) (post_id : Z) : option Post.t :=
  head (filter (fun p => Post.id p = post_id) (posts db)).

(** The relationship [post.votes]: the rows of [vote] whose [post_id] is
    the post's id. *)
Definition post_votes (db : DB) (p : Post.t) : list Vote.t :=
  filter (fun v => Vote.post_id v = Post.id p) (votes db).

(** Python's [sum] over a generator: left to right from 0. *)
Definition py_sum (l : list Z) : Z := foldl Z.add 0 l.

(** The property [Post.score] *)
Definition score (db : DB) (p : Post.t) : Z :=
  match post_votes db p with
  | [] => 0
  | vs => py_sum (map Vote.value vs)
  end.

(** [Vote.query.filter_by(post_id=..., value=...).count()] *)
Definition count_votes (db : DB) (post_id value : Z) : nat :=
  length (filter (fun v => Vote.post_id v = post_id /\ Vote.value v = value) (votes db)).

(** ** The vote ledger: [post_vote] *)

(** The two transports of a vote request: a JSON body, of which only the
    [vote_type] member is read ([None] when it is absent or not a
    string), or a form, of which only the [value] field is read. *)
Inductive VoteRequest :=
| JsonBody (vote_type : option str)
| FormBody (value : option str).

Inductive VoteResponse :=
| VoteNotFound
| VoteBadRequest (error : str)
| VoteIntegrityError
| VoteCounts (upvotes downvotes : nat).

(** Lines 424-434: the value a request carries; [None] is the 400
    response of the form branch. *)
Definition vote_value (req : VoteRequest) : option Z :=
  match req with
  | JsonBody vote_type =>
      Some (if bool_decide (vote_type = Some (chars "up")) then 1
            else if bool_decide (vote_type = Some (chars "down")) then -1
            else 0)
  | FormBody field =>
      match field with
      | None => None
      | Some s =>
          match PyStr.int s with
          | Some value =>
              if bool_decide (value = 1) || bool_decide (value = -1)
              then Some value else None
          | None => None
          end
      end
  end.

(** [Vote.query.filter_by(user_id=..., post_id=...).first()] *)
Definition find_vote (db : DB) (user_id post_id : Z) : option Vote.t :=
  head (filter (fun v => Vote.user_id v = user_id /\ Vote.post_id v = post_id) (votes db)).

(** [db.session.delete(vote)]: the row goes by primary key. *)
Definition delete_vote (db : DB) (vote : Vote.t) : DB :=
  with_votes db (filter (fun v => Vote.id v <> Vote.id vote) (votes db)).

(** [vote.value = value]: the row is updated by primary key. *)
Definition update_vote (db : DB) (vote : Vote.t) (value : Z) : DB :=
  with_votes db
    (map (fun v => if bool_decide (Vote.id v = Vote.id vote)
                   then Vote.set_value value v else v) (votes db)).

(** [db.session.add(Vote(...))] at commit: the insert is refused
    ([None]) by [unique_user_post_vote] when the pair has a row. *)
Definition add_vote (db : DB) (user_id post_id value : Z) : option DB :=
  match find_vote db user_id post_id with
  | Some _ => None
  | None =>
      Some (with_votes db
              (votes db ++
               [Vote.mk (next_id (map Vote.id (votes db))) value user_id post_id]))
  end.

(** Lines 436-446: the ledger operation on a normalised value. *)
Definition cast_vote (db : DB) (user_id post_id value : Z) : option DB :=
  match find_vote db user_id post_id with
  | Some vote =>
      if bool_decide (Vote.value vote = value)
      then Some (delete_vote db vote)
      else Some (update_vote db vote value)
  | None => add_vote db user_id post_id value
  end.

(** The handler of [POST /post/<post_id>/vote] for the logged-in user
    [current_user]: the new store and the response. *)
Definition post_vote (db : DB) (current_user post_id : Z) (req : VoteRequest)
  : DB * VoteResponse :=
  match get_post db post_id with
  | None => (db, VoteNotFound)
  | Some post =>
      match vote_value req with
      | None => (db, VoteBadRequest (chars "Invalid vote value"))
      | Some value =>
          match cast_vote db current_user (Post.id post) value with
          | None => (db, VoteIntegrityError)
          | Some db' =>
              (db', VoteCounts (count_votes db' (Post.id post) 1)
                               (count_votes db' (Post.id post) (-1)))
          end
      end
  end.

(** ** The feed: search, ordering, pagination *)

(** SQLite's [lower()], and the case folding of its [LIKE]: the 26
    ASCII letters only. *)
Definition sqlite_lower_char (c : ascii) : ascii :=
  if PyStr.in_range 65 90 c then ascii_of_N (PyStr.code c + 32) else c.

Definition sqlite_lower (s : str) : str := map sqlite_lower_char s.

(** SQLite's [LIKE]: [%] matches any run of characters, [_] any one
    character, and every other character matches itself up to the case
    of the ASCII letters.  There is no escape character. *)
Fixpoint sqlite_like (pattern s : str) : bool :=
  match pattern with
  | [] => match s with [] => true | _ => false end
  | c :: pattern' =>
      if bool_decide (c = "%"%char) then
        (fix any (s : str) : bool :=
           sqlite_like pattern' s ||
           match s with
           | [] => false
           | _ :: s' => any s'
           end) s
      else
        match s with
        | [] => false
        | d :: s' =>
            (bool_decide (c = "_"%char)
             || bool_decide (sqlite_lower_char c = sqlite_lower_char d))
            && sqlite_like pattern' s'
        end
  end.

(** [column.ilike(pattern)], rendered for SQLite as
    [lower(column) LIKE lower(pattern)]; a NULL column never matches. *)
Definition ilike (column : option str) (pattern : str) : bool :=
  match column with
  | Some s => sqlite_like (sqlite_lower pattern) (sqlite_lower s)
  | None => false
  end.

(** The right-hand side of a LEFT OUTER JOIN for one left row: the
    matching rows, or one NULL row when there is none. *)
Definition outer {A} (matching : list A) : list (option A) :=
  match matching with
  | [] => [None]
  | _ => map Some matching
  end.

(** The [user] rows that join a post: [user.id = post.author_id]. *)
Definition authors (db : DB) (p : Post.t) : list User.t :=
  filter (fun u => User.id u = Post.author_id p) (users db).

(** The [tag] side of the rows of a post under
    [LEFT OUTER JOIN post_tags ON post.id = post_tags.post_id
     LEFT OUTER JOIN tag ON tag.id = post_tags.tag_id]. *)
Definition tag_rows (db : DB) (p : Post.t) : list (option Tag.t) :=
  flat_map (fun pt =>
              match pt with
              | Some (_, tag_id) => outer (filter (fun t => Tag.id t = tag_id) (tags db))
              | None => [None]
              end)
    (outer (filter (fun pt => pt.1 = Post.id p) (post_tags db))).

(** [post JOIN user ON user.id = post.author_id] followed by the two
    outer joins, rows in table order. *)
Definition joined_rows (db : DB) : list (Post.t * User.t * option Tag.t) :=
  flat_map (fun p =>
    flat_map (fun u => map (fun t => (p, u, t)) (tag_rows db p)) (authors db p))
    (posts db).

(** The [db.or_] of the four [ilike] tests on one joined row. *)
Definition row_matches (like : str) (row : Post.t * User.t * option Tag.t) : bool :=
  let '(p, u, t) := row in
  ilike (Some (Post.title p)) like
  || ilike (Some (Post.content p)) like
  || ilike (Some (User.username u)) like
  || ilike (Tag.name <$> t) like.

(** [SELECT DISTINCT]: the first occurrence of every row. *)
Fixpoint distinct (l : list Post.t) : list Post.t :=
  match l with
  | [] => []
  | x :: r => x :: filter (fun y => y <> x) (distinct r)
  end.

(** Lines 162-172 followed by [.all()]: the posts selected for a
    non-empty [q]. *)
Definition search (db : DB) (q : str) : list Post.t :=
  let like := chars "%" ++ q ++ chars "%" in
  distinct (map (fun row => row.1.1)
              (List.filter (row_matches like) (joined_rows db))).

(** [query.all()], with or without the search filter. *)
Definition query_all (db : DB) (q : str) : list Post.t :=
  match q with
  | [] => posts db
  | _ => search db q
  end.

(** The sort key [(p.score, p.created_at)] compared as Python compares
    tuples. *)
Definition key_lt (db : DB) (x y : Post.t) : bool :=
  (score db x <? score db y)
  || ((score db x =? score db y) && (Post.created_at x <? Post.created_at y)).

Fixpoint insert_desc (db : DB) (x : Post.t) (l : list Post.t) : list Post.t :=
  match l with
  | [] => [x]
  | y :: r => if key_lt db x y then y :: insert_desc db x r else x :: l
  end.

(** [posts.sort(key=lambda p: (p.score, p.created_at), reverse=True)]:
    the stable sort by descending key, in which posts of equal keys keep
    their order. *)
Definition sort_posts (db : DB) (l : list Post.t) : list Post.t :=
  foldr (insert_desc db) [] l.

(** Python's [l[start:stop]] with integer bounds: a negative bound
    counts from the end, and both are clamped to the list. *)
Definition py_slice {A} (l : list A) (start stop : Z) : list A :=
  let n := Z.of_nat (length l) in
  let clamp i := if i <? 0 then Z.max 0 (i + n) else Z.min i n in
  let a := clamp start in
  let b := clamp stop in
  take (Z.to_nat (b - a)) (drop (Z.to_nat a) l).

(** The query string of a feed request: raw parameter values, [None]
    when the parameter is absent. *)
Record Args := mkArgs {
  arg_page : option str;
  arg_per_page : option str;
  arg_q : option str
}.

(** [int(request.args.get(name, default))]; [None] is the
    [ValueError]. *)
Definition int_arg (raw : option str) (default : Z) : option Z :=
  match raw with
  | None => Some default
  | Some s => PyStr.int s
  end.

(** [request.args.get('q', '').strip()] *)
Definition q_arg (raw : option str) : str :=
  PyStr.strip (default [] raw).

(** A post as handed to the [index.html] template. *)
Record FeedPost := mkFeedPost {
  fp_post : Post.t;
  fp_upvotes : nat;
  fp_downvotes : nat
}.

Inductive HtmlResponse :=
| HtmlError
| HtmlFeed (posts : list FeedPost).

(** The handler of [GET /]. *)
Definition index (db : DB) (args : Args) : HtmlResponse :=
  match int_arg (arg_page args) 1 with
  | None => HtmlError
  | Some page =>
      match int_arg (arg_per_page args) 10 with
      | None => HtmlError
      | Some per_page =>
          let q := q_arg (arg_q args) in
          let posts := sort_posts db (query_all db q) in
          let start := (page - 1) * per_page in
          let end_ := start + per_page in
          let page_posts := py_slice posts start end_ in
          HtmlFeed
            (map (fun post =>
                    mkFeedPost post
                      (count_votes db (Post.id post) 1)
                      (count_votes db (Post.id post) (-1)))
                 page_posts)
      end
  end.

(** The relationship [post.tags] through the association table. *)
Definition post_tag_list (db : DB) (p : Post.t) : list Tag.t :=
  flat_map (fun pt => filter (fun t => Tag.id t = pt.2) (tags db))
    (filter (fun pt => pt.1 = Post.id p) (post_tags db)).

(** The relationship [post.author]. *)
Definition post_author (db : DB) (p : Post.t) : option User.t :=
  head (authors db p).

(** One entry of the JSON feed; timestamps stay numeric. *)
Record Item := mkItem {
  item_id : Z;
  item_title : str;
  item_content : str;
  item_image_url : option str;
  item_author : str;
  item_author_id : Z;
  item_tags : list str;
  item_created_at : Z;
  item_updated_at : Z;
  item_score : Z;
  item_can_edit : bool
}.

(** [serialize_post]; [None] when [p.author] is [None]. *)
Definition serialize_post (db : DB) (current_user : option Z) (p : Post.t)
  : option Item :=
  match post_author db p with
  | None => None
  | Some author =>
      Some (mkItem (Post.id p) (Post.title p) (Post.content p)
              (Post.image_path p) (User.username author) (User.id author)
              (map Tag.name (post_tag_list db p))
              (Post.created_at p) (Post.updated_at p) (score db p)
              (bool_decide (current_user = Some (Post.author_id p))))
  end.

(** Lines 190-213 and 232 of [api_posts]: the local [page_items] and
    the [has_more] flag. *)
Definition api_posts_page (db : DB) (args : Args) : option (list Post.t * bool) :=
  match int_arg (arg_page args) 1 with
  | None => None
  | Some page =>
      match int_arg (arg_per_page args) 10 with
      | None => None
      | Some per_page =>
          let q := q_arg (arg_q args) in
          let posts := sort_posts db (query_all db q) in
          let start := (page - 1) * per_page in
          let end_ := start + per_page in
          let page_items := py_slice posts start end_ in
          Some (page_items, end_ <? Z.of_nat (length posts))
      end
  end.

Inductive JsonResponse :=
| JsonError
| JsonFeed (items : list Item) (has_more : bool).

(** The handler of [GET /api/posts] for the session's user, [None] when
    anonymous. *)
Definition api_posts (db : DB) (current_user : option Z) (args : Args)
  : JsonResponse :=
  match api_posts_page db args with
  | None => JsonError
  | Some (page_items, has_more) =>
      match mapM (serialize_post db current_user) page_items with
      | None => JsonError
      | Some items => JsonFeed items has_more
      end
  end.

(** ** Post submission: the tags of [post_new] *)

(** Line 329: the cleaned manual tags of a non-empty [tags_input]. *)
Definition manual_tags (tags_input : str) : gset str :=
  list_to_set
    (filter (fun t => t <> [])
       (map (fun t => PyStr.lstrip_char "#" (PyStr.lower (PyStr.strip t)))
          (PyStr.split "," tags_input))).

(** Lines 326-336: the set [tags] of a submission. *)
Definition submission_tags (title content tags_input : str) : gset str :=
  let tags := match tags_input with [] => ∅ | _ => manual_tags tags_input end in
  let title_hashtags := extract_hashtags title in
  let content_hashtags := extract_hashtags content in
  tags ∪ title_hashtags ∪ content_hashtags.

(** [Tag.query.filter_by(name=name).first()] *)
Definition find_tag (table : list Tag.t) (name : str) : option Tag.t :=
  head (filter (fun t => Tag.name t = name) table).

(** One round of the loop of lines 339-345 on the tag table and on
    [post.tags]. *)
Definition attach_tag (st : list Tag.t * list Tag.t) (name : str)
  : list Tag.t * list Tag.t :=
  let '(table, attached) := st in
  match name with
  | [] => st
  | _ =>
      match find_tag table name with
      | Some existing => (table, attached ++ [existing])
      | None =>
          let existing := Tag.mk (next_id (map Tag.id table)) name in
          (table ++ [existing], attached ++ [existing])
      end
  end.

(** The form of [POST /post/new]: raw field values, [None] when the
    field is absent. *)
Record PostForm := mkPostForm {
  form_title : option str;
  form_content : option str;
  form_tags : option str
}.

Inductive PostResponse :=
| PostRejected
| PostCreated.

(** The POST branch of [post_new] for the logged-in user
    [current_user]; [image_url] is what the upload step left and [now]
    the clock.  The set [tags] is visited in the order of its
    [elements]. *)
Definition post_new (db : DB) (current_user : Z) (form : PostForm)
    (image_url : option str) (now : Z) : DB * PostResponse :=
  let title := PyStr.strip (default [] (form_title form)) in
  let content := PyStr.strip (default [] (form_content form)) in
  let tags_input := PyStr.strip (default [] (form_tags form)) in
  match title, content with
  | [], _ | _, [] => (db, PostRejected)
  | _, _ =>
      let post_id := next_id (map Post.id (posts db)) in
      let post := Post.mk post_id title content image_url now now current_user in
      let names := submission_tags title content tags_input in
      let '(table, attached) := foldl attach_tag (tags db, []) (elements names) in
      (mkDB (users db) (posts db ++ [post]) table
         (post_tags db ++ map (fun t => (post_id, Tag.id t)) attached)
         (votes db),
       PostCreated)
  end.

(** ** Editing a post: [post_edit] *)

Inductive EditResponse :=
| EditNotFound
| EditForbidden
| EditRejected
| EditUpdated.

(** [post.tags.clear()]: the association rows of the post go, one for
    each tag the relationship holds. *)
Definition clear_post_tags (db : DB) (post : Post.t) : list (Z * Z) :=
  filter (fun pt => ~ (pt.1 = Post.id post
                       /\ pt.2 ∈ map Tag.id (post_tag_list db post)))
    (post_tags db).

(** The columns [post_edit] assigns, written to a row of the post's
    id; [updated_at] follows when one of them changed. *)
Definition edit_row (post : Post.t) (title content : str)
    (image_path : option str) (now : Z) (row : Post.t) : Post.t :=
  let changed :=
    bool_decide (title <> Post.title post \/ content <> Post.content post
                 \/ image_path <> Post.image_path post) in
  Post.mk (Post.id row) title content image_path (Post.created_at row)
    (if changed then now else Post.updated_at row) (Post.author_id row).

(** The POST branch of [post_edit] for the logged-in user
    [current_user]; [image_url] is the url of a new image when the upload
    step stored one, and [now] the clock. *)
Definition post_edit (db : DB) (current_user post_id : Z) (form : PostForm)
    (image_url : option str) (now : Z) : DB * EditResponse :=
  match get_post db post_id with
  | None => (db, EditNotFound)
  | Some post =>
      if bool_decide (Post.author_id post <> current_user) then (db, EditForbidden)
      else
        let title := PyStr.strip (default [] (form_title form)) in
        let content := PyStr.strip (default [] (form_content form)) in
        let tags_input := PyStr.strip (default [] (form_tags form)) in
        match title, content with
        | [], _ | _, [] => (db, EditRejected)
        | _, _ =>
            let image_path :=
              match image_url with
              | Some url => Some url
              | None => Post.image_path post
              end in
            let names := submission_tags title content tags_input in
            let '(table, attached) :=
              foldl attach_tag (tags db, []) (elements names) in
            (mkDB (users db)
               (map (fun row =>
                       if bool_decide (Post.id row = Post.id post)
                       then edit_row post title content image_path now row
                       else row)
                  (posts db))
               table
               (clear_post_tags db post
                ++ map (fun t => (Post.id post, Tag.id t)) attached)
               (votes db),
             EditUpdated)
        end
  end.

(** ** Comments, and the deletion of a post *)

Module Comment.
Record t := mk {
  id : Z;
  content : str;
  created_at : Z;
  author_id : Z;
  post_id : Z
}.
End Comment.

(** The store together with the [comment] table. *)
Record Site := mkSite {
  site_db : DB;
  site_comments : list Comment.t
}.

(** The relationship [post.comments]. *)
Definition post_comments (s : Site) (p : Post.t) : list Comment.t :=
  filter (fun c => Comment.post_id c = Post.id p) (site_comments s).

Inductive DeleteResponse :=
| DeleteNotFound
| DeleteForbidden
| DeleteDone.

(** The handler of [POST /post/<post_id>/delete] for the logged-in
    user: the comments and the votes the relationships of the post hold
    are deleted by primary key with it, and so are its association rows;
    the tags stay. *)
Definition post_delete (s : Site) (current_user post_id : Z)
  : Site * DeleteResponse :=
  let db := site_db s in
  match get_post db post_id with
  | None => (s, DeleteNotFound)
  | Some post =>
      if bool_decide (Post.author_id post <> current_user)
      then (s, DeleteForbidden)
      else
        (mkSite
           (mkDB (users db)
              (filter (fun p => Post.id p <> Post.id post) (posts db))
              (tags db)
              (clear_post_tags db post)
              (filter (fun v => Vote.id v ∉ map Vote.id (post_votes db post))
                 (votes db)))
           (filter (fun c => Comment.id c ∉ map Comment.id (post_comments s post))
              (site_comments s)),
         DeleteDone)
  end.

Inductive CommentResponse :=
| CommentNotFound
| CommentBadRequest (error : str)
| CommentCreated (id : Z) (content : str) (author : str) (created_at : Z).

(** The shared tail of the two comment routes: the row is added and
    echoed. *)
Definition add_comment (s : Site) (current_user : User.t) (post : Post.t)
    (content : str) (now : Z) : Site * CommentResponse :=
  let comment :=
    Comment.mk (next_id (map Comment.id (site_comments s))) content now
      (User.id current_user) (Post.id post) in
  (mkSite (site_db s) (site_comments s ++ [comment]),
   CommentCreated (Comment.id comment) (Comment.content comment)
     (User.username current_user) (Comment.created_at comment)).

(** The handler of [POST /post/<post_id>/comment]: the form field
    [content], [None] when it is absent. *)
Definition post_comment (s : Site) (current_user : User.t) (post_id : Z)
    (field : option str) (now : Z) : Site * CommentResponse :=
  match get_post (site_db s) post_id with
  | None => (s, CommentNotFound)
  | Some post =>
      match PyStr.strip (default [] field) with
      | [] => (s, CommentBadRequest (chars "Empty comment"))
      | content => add_comment s current_user post content now
      end
  end.

(** The handler of [POST /post/comment]: the members [post_id] and
    [content] of the JSON body, [None] when absent. *)
Definition post_comment_api (s : Site) (current_user : User.t)
    (post_id : option Z) (field : option str) (now : Z)
  : Site * CommentResponse :=
  let content := PyStr.strip (default [] field) in
  match post_id, content with
  | None, _ | _, [] =>
      (s, CommentBadRequest (chars "Missing post_id or content"))
  | Some id, _ =>
      if bool_decide (id = 0)
      then (s, CommentBadRequest (chars "Missing post_id or content"))
      else
        match get_post (site_db s) id with
        | None => (s, CommentNotFound)
        | Some post => add_comment s current_user post content now
        end
  end.

(** ** The profile page *)

Fixpoint insert_recent (x : Post.t) (l : list Post.t) : list Post.t :=
  match l with
  | [] => [x]
  | y :: r =>
      if Post.created_at x <? Post.created_at y
      then y :: insert_recent x r else x :: l
  end.

(** [order_by(Post.created_at.desc())]: later posts first, posts of one
    creation time in table order. *)
Definition newest_first (l : list Post.t) : list Post.t :=
  foldr insert_recent [] l.

Inductive ProfileResponse :=
| ProfileRedirect
| ProfilePage (user : User.t) (posts : list FeedPost).

(** The handler of [GET /u/<user_id>].  The lookup of the user stands
    inside the [try], so that its 404 ends in the redirect like every
    other exception. *)
Definition profile (db : DB) (user_id : Z) : ProfileResponse :=
  match head (filter (fun u => User.id u = user_id) (users db)) with
  | None => ProfileRedirect
  | Some user =>
      let posts :=
        take 20
          (newest_first
             (filter (fun p => Post.author_id p = User.id user) (posts db))) in
      ProfilePage user
        (map (fun post =>
                mkFeedPost post
                  (count_votes db (Post.id post) 1)
                  (count_votes db (Post.id post) (-1)))
           posts)
  end.

(** ** Regular expressions: [re.fullmatch] *)

Module Re.

(** The patterns of the validations: character classes, sequence,
    choice and repetition. *)
Inductive t :=
| Void
| Eps
| Class (f : ascii -> bool)
| Cat (a b : t)
| Alt (a b : t)
| Star (a : t).

Fixpoint nullable (r : t) : bool :=
  match r with
  | Void => false
  | Eps => true
  | Class _ => false
  | Cat a b => nullable a && nullable b
  | Alt a b => nullable a || nullable b
  | Star _ => true
  end.

(** What is left of a pattern after the character [c]. *)
Fixpoint deriv (c : ascii) (r : t) : t :=
  match r with
  | Void => Void
  | Eps => Void
  | Class f => if f c then Eps else Void
  | Cat a b => Alt (Cat (deriv c a) b) (if nullable a then deriv c b else Void)
  | Alt a b => Alt (deriv c a) (deriv c b)
  | Star a => Cat (deriv c a) (Star a)
  end.

(** [re.fullmatch(pattern, s)] as a truth value: all of [s] is read,
    and what is left of the pattern accepts the empty text. *)
Definition fullmatch (r : t) (s : str) : bool :=
  nullable (foldl (fun r c => deriv c r) r s).

(** [a+] *)
Definition plus (a : t) : t := Cat a (Star a).

(** [a{n}] *)
Fixpoint power (a : t) (n : nat) : t :=
  match n with
  | O => Eps
  | S n => Cat a (power a n)
  end.

(** [a{0,n}] *)
Fixpoint upto (a : t) (n : nat) : t :=
  match n with
  | O => Eps
  | S n => Alt Eps (Cat a (upto a n))
  end.

(** [a{lo,hi}] *)
Definition range (a : t) (lo hi : nat) : t :=
  Cat (power a lo) (upto a (hi - lo)).

End Re.

(** ** Accounts: registration, login, settings *)

(** [[A-Za-z0-9_]] *)
Definition username_char (c : ascii) : bool :=
  PyStr.in_range 65 90 c || PyStr.in_range 97 122 c || PyStr.in_range 48 57 c
  || bool_decide (c = "_"%char).

(** [[^@\s]]: the class [\s] of a [str] pattern is the whitespace of
    [str.isspace]. *)
Definition email_char (c : ascii) : bool :=
  negb (bool_decide (c = "@"%char) || PyStr.is_space c).

(** [r'[A-Za-z0-9_]{3,20}'] *)
Definition username_pattern : Re.t := Re.range (Re.Class username_char) 3 20.

(** [r'[^@\s]+@[^@\s]+\.[^@\s]+'] *)
Definition email_pattern : Re.t :=
  Re.Cat (Re.plus (Re.Class email_char))
    (Re.Cat (Re.Class (fun c => bool_decide (c = "@"%char)))
       (Re.Cat (Re.plus (Re.Class email_char))
          (Re.Cat (Re.Class (fun c => bool_decide (c = "."%char)))
             (Re.plus (Re.Class email_char))))).

(** A row of the [user] table with all its columns. *)
Module Account.
Record t := mk {
  id : Z;
  username : str;
  email : str;
  password_hash : str;
  avatar_path : option str;
  theme_preference : str;
  created_at : Z
}.
(** The columns the feed reads. *)
Definition user (a : t) : User.t := User.mk (id a) (username a) (email a).
End Account.

(** A Python [dict] of strings in insertion order: assigning to a key
    it has keeps the key's place. *)
Fixpoint dict_set (k v : str) (d : list (str * str)) : list (str * str) :=
  match d with
  | [] => [(k, v)]
  | (k', v') :: r =>
      if bool_decide (k' = k) then (k, v) :: r else (k', v') :: dict_set k v r
  end.

(** The form of [POST /register]: raw field values, [None] when the
    field is absent. *)
Record RegisterForm := mkRegisterForm {
  reg_username : option str;
  reg_email : option str;
  reg_password : option str
}.

(** [User.query.filter_by(username=username).first()] *)
Definition find_username (accounts : list Account.t) (username : str)
  : option Account.t :=
  head (filter (fun a => Account.username a = username) accounts).

(** [User.query.filter_by(email=email).first()] *)
Definition find_email (accounts : list Account.t) (email : str)
  : option Account.t :=
  head (filter (fun a => Account.email a = email) accounts).

(** Lines 244-254: the dictionary [errors] of a registration. *)
Definition register_errors (accounts : list Account.t)
    (username email password : str) : list (str * str) :=
  let errors := [] in
  let errors :=
    if negb (Re.fullmatch username_pattern username)
    then dict_set (chars "username")
           (chars "3-20 chars, letters/numbers/underscore") errors
    else errors in
  let errors :=
    if negb (Re.fullmatch email_pattern email)
    then dict_set (chars "email") (chars "Invalid email") errors
    else errors in
  let errors :=
    if (length password <? 6)%nat
    then dict_set (chars "password") (chars "At least 6 characters") errors
    else errors in
  let errors :=
    match find_username accounts username with
    | Some _ => dict_set (chars "username") (chars "Username already taken") errors
    | None => errors
    end in
  let errors :=
    match find_email accounts email with
    | Some _ => dict_set (chars "email") (chars "Email already registered") errors
    | None => errors
    end in
  errors.

Inductive RegisterResponse :=
| RegisterInvalid (flashes : list str)
| RegisterDone (user_id : Z).

(** The POST branch of [register]; [password_hash] is what
    [generate_password_hash(password)] returns at this call (the library
    salts the hash at random) and [now] the clock.  On success the new
    user is logged in. *)
Definition register (accounts : list Account.t) (form : RegisterForm)
    (password_hash : str) (now : Z)
  : list Account.t * RegisterResponse :=
  let username := PyStr.strip (default [] (reg_username form)) in
  let email := PyStr.lower (PyStr.strip (default [] (reg_email form))) in
  let password := default [] (reg_password form) in
  match register_errors accounts username email password with
  | [] =>
      let user :=
        Account.mk (next_id (map Account.id accounts)) username email
          password_hash None (chars "system") now in
      (accounts ++ [user], RegisterDone (Account.id user))
  | errors =>
      (accounts,
       RegisterInvalid (map (fun kv => kv.1 ++ chars ": " ++ kv.2) errors))
  end.

(** [check_username]: the members [valid] and [available] of the
    answer. *)
Definition check_username (accounts : list Account.t) (raw : option str)
  : bool * bool :=
  let username := PyStr.strip (default [] raw) in
  let valid := Re.fullmatch username_pattern username in
  let available :=
    valid && bool_decide (find_username accounts username = None) in
  (valid, available).

(** [check_email] *)
Definition check_email (accounts : list Account.t) (raw : option str)
  : bool * bool :=
  let email := PyStr.lower (PyStr.strip (default [] raw)) in
  let valid := Re.fullmatch email_pattern email in
  let available :=
    valid && bool_decide (find_email accounts email = None) in
  (valid, available).

Inductive LoginResponse :=
| LoginInvalid
| LoginDone (user_id : Z).

(** The POST branch of [login]; [check_password_hash] is the check of
    the password library.  [.first()] is read as the first matching row
    in table order; under the constraints of the table at most one row
    matches, so that the order plays no part. *)
Definition login (check_password_hash : str -> str -> bool)
    (accounts : list Account.t) (username_or_email password : option str)
  : LoginResponse :=
  let username_or_email := PyStr.strip (default [] username_or_email) in
  let password := default [] password in
  match head (filter (fun a => Account.username a = username_or_email
                               \/ Account.email a = PyStr.lower username_or_email)
                accounts) with
  | None => LoginInvalid
  | Some user =>
      if check_password_hash (Account.password_hash user) password
      then LoginDone (Account.id user)
      else LoginInvalid
  end.

(** The POST branch of [settings] for the logged-in user: [avatar_url]
    is the url of the avatar when the upload step stored one, [theme] the
    form field. *)
Definition settings (accounts : list Account.t) (current_user : Z)
    (avatar_url theme : option str) : list Account.t :=
  map (fun a =>
         if bool_decide (Account.id a = current_user) then
           Account.mk (Account.id a) (Account.username a) (Account.email a)
             (Account.password_hash a)
             (match avatar_url with
              | Some url => Some url
              | None => Account.avatar_path a
              end)
             (match theme with
              | Some t =>
                  if bool_decide (t = chars "light") || bool_decide (t = chars "dark")
                     || bool_decide (t = chars "system")
                  then t else Account.theme_preference a
              | None => Account.theme_preference a
              end)
             (Account.created_at a)
         else a)
    accounts.

(** [get_user_theme] for the logged-in user. *)
Definition get_user_theme (accounts : list Account.t) (current_user : Z)
  : option str :=
  Account.theme_preference
    <$> head (filter (fun a => Account.id a = current_user) accounts).

(** * Vocabulary of the properties

    The predicates the statements below are written in, and the stores
    the handlers are run on. *)

(** ** Hashtag runs *)

(** The text after a run: empty, or starting with a non-word
    character. *)
Definition run_end (post : str) : Prop :=
  match post with
  | [] => True
  | c :: _ => PyStr.is_word c = false
  end.

(** The character just before the position that follows [pre], when
    [prev] is the character before [pre]. *)
Definition char_before (prev : option ascii) (pre : str) : option ascii :=
  match last pre with
  | Some c => Some c
  | None => prev
  end.

(** [w] is a maximal run of word characters of [text] that follows a
    ['#'] which is not preceded by ['&']. *)
Definition hashtag_at (prev : option ascii) (text w : str) : Prop :=
  exists pre post,
    text = pre ++ "#"%char :: w ++ post
    /\ char_before prev pre <> Some "&"%char
    /\ w <> []
    /\ Forall (fun c => PyStr.is_word c = true) w
    /\ run_end post.

Definition hashtag_run (text w : str) : Prop := hashtag_at None text w.

(** ** Votes *)

(** The pair a vote belongs to. *)
Definition vote_key (v : Vote.t) : Z * Z := (Vote.user_id v, Vote.post_id v).

(** [unique_user_post_vote]: no two rows of [vote] share a (user, post)
    pair. *)
Definition unique_votes (db : DB) : Prop := NoDup (map vote_key (votes db)).

(** The primary key of [vote]. *)
Definition unique_vote_ids (db : DB) : Prop := NoDup (map Vote.id (votes db)).

(** The rows of one (user, post) pair. *)
Definition pair_votes (db : DB) (user_id post_id : Z) : list Vote.t :=
  filter (fun v => Vote.user_id v = user_id /\ Vote.post_id v = post_id) (votes db).

(** The number of a post's votes of one value. *)
Definition votes_with (db : DB) (post_id value : Z) : nat :=
  length (filter (fun v => Vote.value v = value)
            (filter (fun v => Vote.post_id v = post_id) (votes db))).

(** A sequence of vote requests, each by a user on a post. *)
Definition run_votes (db : DB) (ops : list (Z * Z * VoteRequest)) : DB :=
  foldl (fun db op => (post_vote db op.1.1 op.1.2 op.2).1) db ops.

(** What the ledger does to the rows of [vote] for a cast of [value] by
    user [u] on post [p], in the words of the contract. *)
Inductive ledger_step (u p value : Z) (old new : list Vote.t) : Prop :=
| ToggleOff v :
    v ∈ old -> vote_key v = (u, p) -> Vote.value v = value ->
    new = filter (fun v' => v' <> v) old ->
    ledger_step u p value old new
| Flip v :
    v ∈ old -> vote_key v = (u, p) -> Vote.value v <> value ->
    new = map (fun v' => if decide (v' = v) then Vote.set_value value v else v') old ->
    ledger_step u p value old new
| Create id :
    (forall v, v ∈ old -> vote_key v <> (u, p)) ->
    id ∉ map Vote.id old ->
    new = old ++ [Vote.mk id value u p] ->
    ledger_step u p value old new.

(** ** Stores of the examples *)

(** A store to run the handlers on: two users, three posts, two tags
    and the votes that give the posts the scores 1, 0 and -1. *)
Definition sample_db : DB :=
  mkDB
    [User.mk 1 (chars "alice") (chars "alice@example.org");
     User.mk 2 (chars "bob") (chars "bob@example.org")]
    [Post.mk 1 (chars "Hello #World") (chars "first post") None 100 100 1;
     Post.mk 2 (chars "Rocq notes") (chars "on <b>proofs</b>") None 200 200 2;
     Post.mk 3 (chars "Lunch") (chars "soup") None 300 300 1]
    [Tag.mk 1 (chars "world"); Tag.mk 2 (chars "proofs")]
    [(1, 1); (2, 2); (2, 1)]
    [Vote.mk 1 1 1 1; Vote.mk 2 (-1) 2 3].

(** A store with the three posts of the ordering example: A and B with
    five upvotes each, C with three, created in the order A, B, C. *)
Definition ranked_db : DB :=
  let A := Post.mk 1 (chars "A") (chars "a") None 100 100 1 in
  let B := Post.mk 2 (chars "B") (chars "b") None 200 200 1 in
  let C := Post.mk 3 (chars "C") (chars "c") None 300 300 1 in
  mkDB [User.mk 1 (chars "alice") (chars "alice@example.org")]
    [A; B; C] [] []
    (imap (fun i '(u, p) => Vote.mk (Z.of_nat i + 1) 1 u p)
       [(1, 1); (2, 1); (3, 1); (4, 1); (5, 1);
        (1, 2); (2, 2); (3, 2); (4, 2); (5, 2);
        (1, 3); (2, 3); (3, 3)]).

(** A store of 25 posts by one author. *)
Definition paged_db : DB :=
  mkDB [User.mk 1 (chars "alice") (chars "alice@example.org")]
    (map (fun i => Post.mk i (chars "post") (chars "text") None (1000 + i) (1000 + i) 1)
       (map Z.of_nat (seq 1 25)))
    [] [] [].

(** ** Score, order and routes *)

(** The sum of the values of a list of votes. *)
Fixpoint sum_values (vs : list Vote.t) : Z :=
  match vs with
  | [] => 0
  | v :: r => Vote.value v + sum_values r
  end.

(** [x] ranks at or above [y]: a larger score, or the same score and a
    creation time that is not earlier. *)
Definition feed_ge (db : DB) (x y : Post.t) : Prop :=
  score db y < score db x
  \/ (score db y = score db x /\ Post.created_at y <= Post.created_at x).

(** The posts a response of the HTML route shows, in order. *)
Definition html_posts (r : HtmlResponse) : option (list Post.t) :=
  match r with
  | HtmlFeed fps => Some (map fp_post fps)
  | HtmlError => None
  end.

(** The ids of the items of a response of the JSON route, in order. *)
Definition json_ids (r : JsonResponse) : option (list Z) :=
  match r with
  | JsonFeed items _ => Some (map item_id items)
  | JsonError => None
  end.

(** The [page_items] of a request, empty when the request fails. *)
Definition page_of (db : DB) (args : Args) : list Post.t :=
  default [] (fst <$> api_posts_page db args).

(** ** Substrings up to case *)













(** ** Tags in the words of the contract *)

(** The manual tags of a tag string in the words of the contract:
    split on commas, strip whitespace, strip the leading hash characters
    with [strip_hash], lowercase, drop what is left empty. *)
Definition spec_manual_tags (strip_hash : str -> str) (tag_string : str) : gset str :=
  list_to_set
    (filter (fun t => t <> [])
       (map (fun t => PyStr.lower (strip_hash (PyStr.strip t)))
          (PyStr.split "," tag_string))).

(** The effective tag set: manual tags, hashtags of the title and
    hashtags of the content. *)
Definition spec_effective_tags (strip_hash : str -> str)
    (title content tag_string : str) : gset str :=
  spec_manual_tags strip_hash tag_string
  ∪ extract_hashtags title ∪ extract_hashtags content.

(** Stripping one leading ['#']. *)
Definition strip_one_hash (t : str) : str :=
  match t with
  | c :: r => if bool_decide (c = "#"%char) then r else t
  | [] => []
  end.

(** The names of the tags the store associates with a post. *)
Definition post_tag_names (db : DB) (p : Post.t) : gset str :=
  list_to_set (map Tag.name (post_tag_list db p)).

(** The association rows of a store name posts of the store, and the
    ids of its tags are distinct. *)
Definition tags_consistent (db : DB) : Prop :=
  NoDup (map Tag.id (tags db))
  /\ Forall (fun pt => pt.1 ∈ map Post.id (posts db)) (post_tags db).

(** ** Votes: the value of a pair *)

(** The value a user has cast on a post, if any. *)
Definition pair_value (db : DB) (user_id post_id : Z) : option Z :=
  Vote.value <$> find_vote db user_id post_id.

(** The ledger as a function on the value of one pair. *)
Definition ledger_next (current : option Z) (value : Z) : option Z :=
  match current with
  | Some w => if bool_decide (w = value) then None else Some value
  | None => Some value
  end.

(** A vote counts for, against or not at all. *)
Definition vote_in_range (v : Vote.t) : Prop :=
  Vote.value v = 1 \/ Vote.value v = 0 \/ Vote.value v = -1.

(** ** Tag tables *)

(** The names of a tag table are distinct, lowercase and not empty. *)
Definition canonical_tags (table : list Tag.t) : Prop :=
  NoDup (map Tag.name table)
  /\ Forall (fun t => PyStr.lower (Tag.name t) = Tag.name t /\ Tag.name t <> [])
       table.

(** Every association row names a post and a tag of the store. *)
Definition tags_referenced (db : DB) : Prop :=
  Forall (fun pt => pt.1 ∈ map Post.id (posts db)
                    /\ pt.2 ∈ map Tag.id (tags db))
    (post_tags db).

(** ** Blank fields *)


(** ** Recency *)

(** [x] was created no earlier than [y]. *)
Definition not_older (x y : Post.t) : Prop :=
  Post.created_at y <= Post.created_at x.

(** ** The language of a pattern *)

(** [s] is a text of the pattern [r]. *)
Inductive matches : Re.t -> str -> Prop :=
| MEps : matches Re.Eps []
| MClass f c : f c = true -> matches (Re.Class f) [c]
| MCat a b s1 s2 :
    matches a s1 -> matches b s2 -> matches (Re.Cat a b) (s1 ++ s2)
| MAltL a b s : matches a s -> matches (Re.Alt a b) s
| MAltR a b s : matches b s -> matches (Re.Alt a b) s
| MStar0 a : matches (Re.Star a) []
| MStarS a s1 s2 :
    matches a s1 -> matches (Re.Star a) s2 -> matches (Re.Star a) (s1 ++ s2).

(** The texts between two characters [sep] of which [local], [domain]
    and [tld] are made: no ['@'], no whitespace, not empty. *)
Definition email_part (s : str) : Prop :=
  s <> [] /\ Forall (fun c => email_char c = true) s.

(** ** Account tables *)

(** The constraints of the table [user] (distinct ids, usernames and
    emails) and what the registration checks of every username and
    email it stores. *)
Definition accounts_ok (accounts : list Account.t) : Prop :=
  NoDup (map Account.id accounts)
  /\ NoDup (map Account.username accounts)
  /\ NoDup (map Account.email accounts)
  /\ Forall (fun a =>
               Re.fullmatch username_pattern (Account.username a) = true
               /\ Re.fullmatch email_pattern (Account.email a) = true)
       accounts.

(** One of the messages flashed is about [field]. *)
Definition flash_for (field : str) (flashes : list str) : Prop :=
  exists msg, field ++ chars ": " ++ msg ∈ flashes.

(** The account a login identifier names: by its username as typed, or
    by its email in lowercase. *)
Definition named_by (ident : str) (a : Account.t) : Prop :=
  Account.username a = ident \/ Account.email a = PyStr.lower ident.

(** The three themes. *)
Definition valid_theme (t : str) : Prop :=
  t = chars "light" \/ t = chars "dark" \/ t = chars "system".

(** Accounts to run the handlers on; the stored hashes are those of
    [sample_check]. *)
Definition sample_accounts : list Account.t :=
  [Account.mk 1 (chars "alice") (chars "alice@example.org") (chars "h:wonderland")
     None (chars "system") 10;
   Account.mk 2 (chars "bob") (chars "bob@example.org") (chars "h:builder")
     None (chars "dark") 20].

(** A stand-in for the check of the password library: the hash is the
    password behind a prefix. *)
Definition sample_check (hash password : str) : bool :=
  bool_decide (hash = chars "h:" ++ password).

(** * Properties *)

(** ** Scanning lemmas *)

Section Spans.
Variable f : ascii -> bool.

Lemma take_drop_while s : PyStr.take_while f s ++ PyStr.drop_while f s = s.
Proof. induction s as [|c r IH]; simpl; [done|]. destruct (f c); simpl; congruence. Qed.

Lemma take_while_all s : Forall (fun c => f c = true) (PyStr.take_while f s).
Proof.
  induction s as [|c r IH]; simpl; [constructor|].
  destruct (f c) eqn:E; [by constructor | constructor].
Qed.

Lemma drop_while_stop s : match PyStr.drop_while f s with
                          | [] => True
                          | c :: _ => f c = false
                          end.
Proof. induction s as [|c r IH]; simpl; [done|]. destruct (f c) eqn:E; [done | by simpl]. Qed.

(** A run [w] of [f]-characters followed by a stop is what the two
    scanners cut off. *)
Lemma span_run w post :
  Forall (fun c => f c = true) w ->
  match post with [] => True | c :: _ => f c = false end ->
  PyStr.take_while f (w ++ post) = w /\ PyStr.drop_while f (w ++ post) = post.
Proof.
  intros Hw Hpost. induction Hw as [|c w Hc _ [IH1 IH2]]; simpl.
  - destruct post as [|c r]; simpl; [done|]. by rewrite Hpost.
  - rewrite Hc. by rewrite IH1, IH2.
Qed.

(** The first stop of [s] is where the two scanners split it. *)
Lemma span_before_stop s pre x tl :
  s = pre ++ x :: tl -> f x = false ->
  exists pre', pre = PyStr.take_while f s ++ pre'
               /\ PyStr.drop_while f s = pre' ++ x :: tl.
Proof.
  revert pre. induction s as [|c r IH]; intros pre Hs Hx.
  - by destruct pre.
  - simpl. destruct (f c) eqn:E.
    + destruct pre as [|c' pre]; simpl in Hs.
      * congruence.
      * injection Hs as <- Hr. destruct (IH pre Hr Hx) as (pre' & -> & ->).
        by exists pre'.
    + by exists pre.
Qed.
End Spans.

(** ** Hashtag extraction: the occurrences the scanner reports *)

Lemma char_before_cons prev c pre :
  char_before prev (c :: pre) = char_before (Some c) pre.
Proof. unfold char_before. rewrite last_cons. by destruct (last pre). Qed.

Lemma char_before_app prev x pre :
  x <> [] -> char_before prev (x ++ pre) = char_before (last x) pre.
Proof.
  intros Hx. unfold char_before. rewrite last_app.
  destruct (last pre); [done|].
  destruct (last x) eqn:E; [done|]. by apply last_None in E.
Qed.

Lemma hashtag_match_Some prev s w rest :
  hashtag_match prev s = Some (w, rest) ->
  exists r, s = "#"%char :: r /\ prev <> Some "&"%char
            /\ w = PyStr.take_while PyStr.is_word r
            /\ rest = PyStr.drop_while PyStr.is_word r
            /\ w <> [].
Proof.
  destruct s as [|c r]; simpl; [done|].
  case_bool_decide as Hc; simpl; [|done].
  case_bool_decide as Hp; simpl; [done|].
  destruct (PyStr.take_while PyStr.is_word r) eqn:E; [done|].
  intros [= <- <-]. exists r. by subst c.
Qed.

Lemma hashtag_match_None prev r :
  hashtag_match prev ("#"%char :: r) = None ->
  prev = Some "&"%char \/ PyStr.take_while PyStr.is_word r = [].
Proof.
  simpl. case_bool_decide as Hp; simpl; [by left|].
  destruct (PyStr.take_while PyStr.is_word r); [by right | done].
Qed.

Lemma hash_not_word : PyStr.is_word "#"%char = false.
Proof. reflexivity. Qed.

Lemma finditer_from_cons fuel prev c r :
  finditer_from (S fuel) prev (c :: r) =
  match hashtag_match prev (c :: r) with
  | Some (w, rest) => w :: finditer_from fuel (last w) rest
  | None => finditer_from fuel (Some c) r
  end.
Proof. reflexivity. Qed.

(** With fuel for every character, the scanner reports exactly the
    runs of [hashtag_at]. *)
Lemma finditer_from_spec fuel prev s w :
  (length s <= fuel)%nat ->
  w ∈ finditer_from fuel prev s <-> hashtag_at prev s w.
Proof.
  revert prev s. induction fuel as [|fuel IH]; intros prev s Hlen.
  - destruct s; simpl in Hlen; [|lia]. simpl. split.
    + by intros ?%elem_of_nil.
    + intros (pre & post & H & _). by destruct pre.
  - destruct s as [|c r].
    { simpl. split; [by intros ?%elem_of_nil|].
      intros (pre & post & H & _). by destruct pre. }
    simpl in Hlen. rewrite finditer_from_cons.
    destruct (hashtag_match prev (c :: r)) as [[g rest]|] eqn:Hm.
    + apply hashtag_match_Some in Hm as (r0 & Hs & Hprev & Hg & Hrest & Hne).
      injection Hs as -> <-.
      pose proof (take_drop_while PyStr.is_word r) as Hr.
      rewrite <- Hg, <- Hrest in Hr.
      assert (length rest <= fuel)%nat as Hfuel.
      { rewrite <- Hr, length_app in Hlen. lia. }
      rewrite elem_of_cons, (IH _ _ Hfuel). split.
      * intros [-> | (pre & post & Hrest' & Hb & Hw & Hall & Hend)].
        -- exists [], rest. simpl. repeat split; try done.
           ++ by rewrite Hr.
           ++ rewrite Hg. apply take_while_all.
           ++ rewrite Hrest. apply (drop_while_stop PyStr.is_word).
        -- exists ("#"%char :: g ++ pre), post. repeat split; try done.
           ++ simpl. rewrite <- Hr, Hrest'. by rewrite <- app_assoc.
           ++ rewrite char_before_cons.
              destruct g as [|a g]; [done|].
              by rewrite char_before_app.
      * intros (pre & post & Heq & Hb & Hw & Hall & Hend).
        destruct pre as [|c' pre]; simpl in Heq.
        -- left. injection Heq as Heq.
           destruct (span_run PyStr.is_word w post Hall Hend) as [Ht _].
           rewrite <- Heq in Ht. congruence.
        -- right. injection Heq as <- Heq.
           destruct (span_before_stop PyStr.is_word r pre "#"%char (w ++ post) Heq hash_not_word)
             as (pre' & Hpre & Hdrop).
           exists pre', post. repeat split; try done.
           ++ by rewrite Hrest.
           ++ rewrite char_before_cons in Hb. rewrite Hpre, <- Hg in Hb.
              destruct g as [|a g]; [done|].
              rewrite char_before_app in Hb by done. done.
    + rewrite (IH (Some c) r) by lia. split.
      * intros (pre & post & Heq & Hb & Hw & Hall & Hend).
        exists (c :: pre), post. repeat split; try done.
        -- simpl. by rewrite Heq.
        -- by rewrite char_before_cons.
      * intros (pre & post & Heq & Hb & Hw & Hall & Hend).
        destruct pre as [|c' pre]; simpl in Heq.
        -- injection Heq as -> ->.
           apply hashtag_match_None in Hm as [Hm | Hm].
           ++ by simpl in Hb.
           ++ destruct (span_run PyStr.is_word w post Hall Hend) as [Ht _].
              congruence.
        -- injection Heq as <- Heq. exists pre, post.
           rewrite char_before_cons in Hb. done.
Qed.

Lemma finditer_spec text w : w ∈ finditer text <-> hashtag_run text w.
Proof. unfold finditer, hashtag_run. by apply finditer_from_spec. Qed.

Lemma hashtag_run_nonempty text w : hashtag_run text w -> PyStr.lower w <> [].
Proof. intros (pre & post & _ & _ & Hw & _). by destruct w. Qed.

Lemma extract_hashtags_nonempty text : [] ∉ extract_hashtags text.
Proof.
  unfold extract_hashtags. destruct text as [|c r]; [apply not_elem_of_empty|].
  rewrite elem_of_list_to_set, list_elem_of_In, in_map_iff.
  intros (w & Hl & Hw%list_elem_of_In%finditer_spec).
  by apply hashtag_run_nonempty in Hw.
Qed.

(** C5. For every text (of characters up to code point 255),
    [extract_hashtags] returns exactly the set of
    lowercased maximal runs of word characters that follow a ['#'] which
    is not itself preceded by ['&'].  The text
    ["Loving #OpenSource and #openSource today"] yields the one-element
    set {"opensource"}, and the entity ["&#39;"] yields no tag, alone or
    inside a text that has a real hashtag. *)
Theorem extract_hashtags_spec :
  (forall text t,
     t ∈ extract_hashtags text <->
     exists w, hashtag_run text w /\ t = PyStr.lower w)
  /\ extract_hashtags (chars "Loving #OpenSource and #openSource today")
     = {[ chars "opensource" ]}
  /\ extract_hashtags (chars "&#39;") = ∅
  /\ extract_hashtags (chars "It&#39;s #Rocq") = {[ chars "rocq" ]}.
Proof.
  split; [|by vm_compute].
  intros text t. unfold extract_hashtags. destruct text as [|c r].
  - split; [by intros ?%not_elem_of_empty|].
    intros (w & (pre & post & H & _) & _). by destruct pre.
  - rewrite elem_of_list_to_set, list_elem_of_In, in_map_iff.
    split.
    + intros (w & <- & Hw%list_elem_of_In%finditer_spec). by exists w.
    + intros (w & Hw%finditer_spec%list_elem_of_In & ->). by exists w.
Qed.

(** The scanner on letters beyond ASCII: the e with acute accent (233)
    is a word character and the lowercase of the capital one (201); the
    multiplication sign (215) ends a run. *)
Example finditer_latin1 :
  map PyStr.lower (finditer (chars "#caf" ++ ["233"%char]))
  = [chars "caf" ++ ["233"%char]]
  /\ map PyStr.lower (finditer (chars "#" ++ ["201"%char])) = [["233"%char]]
  /\ map PyStr.lower (finditer (chars "#a" ++ "215"%char :: chars "b")) = [chars "a"].
Proof. by vm_compute. Qed.

(** [strip] removes the no-break space (160) and NEL (133) as it
    removes the ASCII blanks; [int] skips them around a numeral, but not
    the separators FS..US, which [strip] removes. *)
Example whitespace_latin1 :
  PyStr.strip ("160"%char :: chars " hi" ++ ["133"%char; "028"%char]) = chars "hi"
  /\ PyStr.int ("160"%char :: chars "7" ++ ["133"%char]) = Some 7
  /\ PyStr.int ("028"%char :: chars "7") = None
  /\ PyStr.int (chars " +1_0 ") = Some 10
  /\ PyStr.int (chars "1__0") = None
  /\ PyStr.int (chars "+ 7") = None.
Proof. by vm_compute. Qed.

(** ** The vote ledger *)

Section ListFacts.
Context {A B : Type}.

Lemma head_filter_Some (P : A -> Prop) `{!forall x, Decision (P x)} (l : list A) x :
  head (filter P l) = Some x -> x ∈ l /\ P x.
Proof.
  intros (l' & Hl)%head_Some.
  assert (x ∈ filter P l) as Hx by (rewrite Hl; left).
  apply list_elem_of_filter in Hx. tauto.
Qed.

Lemma head_filter_None (P : A -> Prop) `{!forall x, Decision (P x)} (l : list A) :
  head (filter P l) = None -> forall x, x ∈ l -> ~ P x.
Proof.
  intros Hl%head_None x Hx HP. by apply (filter_nil_not_elem_of P l x).
Qed.

Lemma filter_map_commute (P : A -> Prop) `{!forall x, Decision (P x)}
    (g : A -> A) l :
  (forall x, P (g x) <-> P x) ->
  filter P (map g l) = map g (filter P l).
Proof.
  intros Hg. induction l as [|x l IH]; simpl; [done|].
  rewrite !filter_cons. destruct (decide (P (g x))) as [Hgx|Hgx];
    destruct (decide (P x)) as [Hx|Hx]; simpl; try (by rewrite IH).
  - exfalso. by apply Hx, Hg.
  - exfalso. by apply Hgx, Hg.
Qed.

Lemma filter_all (P : A -> Prop) `{!forall x, Decision (P x)} (l : list A) :
  (forall x, x ∈ l -> P x) -> filter P l = l.
Proof.
  induction l as [|x l IH]; intros Hall; [done|].
  rewrite filter_cons_True by (apply Hall; left).
  rewrite IH; [done|]. intros y Hy. apply Hall. by right.
Qed.

Lemma filter_none (P : A -> Prop) `{!forall x, Decision (P x)} (l : list A) :
  (forall x, x ∈ l -> ~ P x) -> filter P l = [].
Proof.
  induction l as [|x l IH]; intros Hall; [done|].
  rewrite filter_cons_False by (apply Hall; left).
  apply IH. intros y Hy. apply Hall. by right.
Qed.

Lemma filter_ext_in (P Q : A -> Prop) `{!forall x, Decision (P x)}
    `{!forall x, Decision (Q x)} (l : list A) :
  (forall x, x ∈ l -> P x <-> Q x) -> filter P l = filter Q l.
Proof.
  induction l as [|x l IH]; intros Hall; [done|].
  rewrite !filter_cons.
  rewrite IH by (intros y Hy; apply Hall; by right).
  destruct (decide (P x)) as [HP|HP], (decide (Q x)) as [HQ|HQ]; try done.
  - exfalso. apply HQ, Hall; [left|done].
  - exfalso. apply HP, Hall; [left|done].
Qed.

Lemma NoDup_map_filter (k : A -> B) (P : A -> Prop)
    `{!forall x, Decision (P x)} l :
  NoDup (map k l) -> NoDup (map k (filter P l)).
Proof.
  induction l as [|x l IH]; simpl; [done|].
  intros [Hx Hl]%NoDup_cons. rewrite filter_cons.
  destruct (decide (P x)); [|by apply IH].
  simpl. apply NoDup_cons. split; [|by apply IH].
  intros Hin. apply Hx.
  apply list_elem_of_In, in_map_iff in Hin as (y & Hy & Hin).
  apply list_elem_of_In, in_map_iff. exists y. split; [done|].
  apply list_elem_of_In. apply list_elem_of_In in Hin.
  apply list_elem_of_filter in Hin. tauto.
Qed.

(** Under a key without duplicates, a row is the only one of its
    key. *)
Lemma NoDup_map_eq (k : A -> B) (l : list A) x y :
  NoDup (map k l) -> x ∈ l -> y ∈ l -> k x = k y -> x = y.
Proof.
  induction l as [|z l IH]; simpl; [by intros _ ?%elem_of_nil|].
  intros [Hz Hl]%NoDup_cons [->|Hx]%elem_of_cons [->|Hy]%elem_of_cons Hk;
    [done| | |by apply IH].
  - exfalso. apply Hz. rewrite Hk.
    apply list_elem_of_In, in_map. by apply list_elem_of_In.
  - exfalso. apply Hz. rewrite <- Hk.
    apply list_elem_of_In, in_map. by apply list_elem_of_In.
Qed.
End ListFacts.

Lemma next_id_fresh ids x : x ∈ ids -> x < next_id ids.
Proof.
  unfold next_id. induction ids as [|y ids IH]; [by intros ?%elem_of_nil|].
  intros [->|Hx]%elem_of_cons; simpl; [lia|]. specialize (IH Hx). lia.
Qed.

Lemma get_post_Some db post_id post :
  get_post db post_id = Some post -> post ∈ posts db /\ Post.id post = post_id.
Proof. apply (head_filter_Some (fun p => Post.id p = post_id)). Qed.

Lemma find_vote_Some db u p v :
  find_vote db u p = Some v ->
  v ∈ votes db /\ Vote.user_id v = u /\ Vote.post_id v = p.
Proof.
  apply (head_filter_Some (fun v => Vote.user_id v = u /\ Vote.post_id v = p)).
Qed.

Lemma find_vote_None db u p v :
  find_vote db u p = None -> v ∈ votes db -> vote_key v <> (u, p).
Proof.
  intros H Hv Hk. apply (head_filter_None _ _ H v Hv).
  unfold vote_key in Hk. by injection Hk.
Qed.

Lemma cast_vote_unique db u p value db' :
  unique_votes db -> cast_vote db u p value = Some db' -> unique_votes db'.
Proof.
  unfold cast_vote, unique_votes. intros Hu.
  destruct (find_vote db u p) as [v|] eqn:Hf.
  - case_bool_decide; intros [= <-]; simpl.
    + by apply NoDup_map_filter.
    + rewrite map_map. erewrite map_ext; [exact Hu|].
      intros v0. by case_bool_decide.
  - unfold add_vote. rewrite Hf. intros [= <-]. simpl.
    rewrite map_app. simpl. apply NoDup_app. split; [done|]. split.
    + intros k Hk ->%list_elem_of_singleton.
      apply list_elem_of_In, in_map_iff in Hk as (v & Hv & Hin).
      apply list_elem_of_In in Hin. by apply (find_vote_None _ _ _ _ Hf Hin).
    + apply NoDup_singleton.
Qed.

(** The unique constraint never refuses the insert of the ledger. *)
Lemma cast_vote_total db u p value : is_Some (cast_vote db u p value).
Proof.
  unfold cast_vote. destruct (find_vote db u p) eqn:Hf.
  - by case_bool_decide.
  - unfold add_vote. by rewrite Hf.
Qed.

Lemma post_vote_unique db u p req :
  unique_votes db -> unique_votes (post_vote db u p req).1.
Proof.
  intros Hu. unfold post_vote.
  destruct (get_post db p) as [post|]; [|done].
  destruct (vote_value req) as [value|]; [|done].
  destruct (cast_vote db u (Post.id post) value) as [db'|] eqn:Hc; [|done].
  simpl. by eapply cast_vote_unique.
Qed.

Lemma count_votes_with db p x : count_votes db p x = votes_with db p x.
Proof.
  unfold count_votes, votes_with. rewrite list_filter_filter. f_equal.
  apply list_filter_iff. tauto.
Qed.

Lemma with_votes_same db : with_votes db (votes db) = db.
Proof. by destruct db. Qed.

Lemma cast_vote_step db u p value :
  unique_vote_ids db ->
  exists db', cast_vote db u p value = Some db'
              /\ db' = with_votes db (votes db')
              /\ ledger_step u p value (votes db) (votes db').
Proof.
  intros Hids. unfold cast_vote.
  destruct (find_vote db u p) as [v|] eqn:Hf.
  - apply find_vote_Some in Hf as (Hv & Hu & Hp).
    assert (forall v', v' ∈ votes db -> Vote.id v' = Vote.id v <-> v' = v) as Hid.
    { intros v' Hv'. split; [|by intros ->].
      by apply (NoDup_map_eq Vote.id (votes db)). }
    case_bool_decide as Hval; eexists; (split; [done|]); (split; [done|]).
    + apply (ToggleOff _ _ _ _ _ v); try done.
      * unfold vote_key. by rewrite Hu, Hp.
      * simpl. apply filter_ext_in. intros v' Hv'.
        by rewrite (Hid v' Hv').
    + apply (Flip _ _ _ _ _ v); try done.
      * unfold vote_key. by rewrite Hu, Hp.
      * simpl. apply map_ext_in. intros v' Hv'%list_elem_of_In.
        case_bool_decide as E; case_decide as E'; try done.
        -- by subst v'.
        -- by apply Hid in E.
        -- by subst v'.
  - unfold add_vote. rewrite Hf. eexists. split; [done|]. split; [done|].
    apply (Create _ _ _ _ _ (next_id (map Vote.id (votes db)))); try done.
    + intros v Hv. by apply (find_vote_None _ _ _ _ Hf).
    + intros Hin%next_id_fresh. lia.
Qed.

(** Casting again what was just created removes it: the store is the
    one before the first cast. *)
Lemma cast_vote_twice db u p value db1 :
  find_vote db u p = None ->
  cast_vote db u p value = Some db1 ->
  cast_vote db1 u p value = Some db.
Proof.
  intros Hf. unfold cast_vote at 1. rewrite Hf. unfold add_vote. rewrite Hf.
  intros [= <-]. unfold cast_vote.
  set (new := Vote.mk (next_id (map Vote.id (votes db))) value u p).
  assert (find_vote (with_votes db (votes db ++ [new])) u p = Some new) as ->.
  { pose proof Hf as Hnil. unfold find_vote in Hnil. apply head_None in Hnil.
    unfold find_vote. simpl. rewrite filter_app, Hnil. simpl.
    by rewrite filter_cons_True. }
  rewrite bool_decide_eq_true_2 by done. f_equal.
  unfold delete_vote. simpl. rewrite filter_app.
  rewrite filter_all.
  - rewrite filter_cons_False by (intros H; by apply H).
    rewrite filter_nil, app_nil_r. by destruct db.
  - intros v Hv Heq. simpl in Heq.
    assert (Vote.id v ∈ map Vote.id (votes db)) as Hin.
    { apply list_elem_of_In, in_map. by apply list_elem_of_In. }
    apply next_id_fresh in Hin. lia.
Qed.

(** C2. For a cast of a value by a user on an existing post, the rows
    of [vote] change as the contract says: a row of that pair with the
    same value is deleted, one with a different value has its value
    replaced in place, and with no row of that pair a new row of the given
    value is appended; nothing else in the store changes, and the response
    carries the numbers of the post's votes of value +1 and -1 in the new
    store.  Casting the same request again after a creation gives the
    first store and its counts back. *)
Theorem post_vote_ledger db u p req post value :
  unique_vote_ids db ->
  get_post db p = Some post ->
  vote_value req = Some value ->
  exists db',
    post_vote db u p req
      = (db', VoteCounts (votes_with db' p 1) (votes_with db' p (-1)))
    /\ db' = with_votes db (votes db')
    /\ ledger_step u p value (votes db) (votes db')
    /\ (pair_votes db u p = [] ->
        post_vote db' u p req
          = (db, VoteCounts (votes_with db p 1) (votes_with db p (-1)))).
Proof.
  intros Hids Hpost Hreq.
  destruct (get_post_Some _ _ _ Hpost) as [Hin Hid].
  destruct (cast_vote_step db u p value Hids) as (db' & Hc & Hdb & Hstep).
  exists db'. unfold post_vote at 1. rewrite Hpost, Hreq, Hid, Hc.
  rewrite !count_votes_with. repeat split; try done.
  intros Hnone. unfold post_vote.
  assert (get_post db' p = Some post) as ->.
  { rewrite Hdb. exact Hpost. }
  rewrite Hreq, Hid.
  rewrite (cast_vote_twice db u p value db'); try done.
  - by rewrite !count_votes_with.
  - unfold find_vote. change (head (pair_votes db u p) = None). by rewrite Hnone.
Qed.

(** C3. A store without two votes of one (user, post) pair stays so
    under any sequence of vote requests.  When a pair has no vote,
    casting a value and then the opposite value leaves exactly one row for
    the pair: the row the first cast created, now with the opposite value,
    and the table has not grown. *)
Theorem votes_stay_unique db ops :
  unique_votes db ->
  unique_votes (run_votes db ops)
  /\ forall u p r1 r2 value,
       is_Some (get_post db p) ->
       vote_value r1 = Some value ->
       vote_value r2 = Some (- value) ->
       value = 1 \/ value = -1 ->
       pair_votes db u p = [] ->
       let db1 := (post_vote db u p r1).1 in
       let db2 := (post_vote db1 u p r2).1 in
       exists v,
         pair_votes db1 u p = [v]
         /\ Vote.value v = value
         /\ pair_votes db2 u p = [Vote.set_value (- value) v]
         /\ length (votes db2) = length (votes db1).
Proof.
  intros Hu. split.
  - revert db Hu. induction ops as [|op ops IH]; intros db Hu; [done|].
    simpl. apply IH. by apply post_vote_unique.
  - intros u p r1 r2 value [post Hpost] Hr1 Hr2 Hval Hnone db1 db2.
    destruct (get_post_Some _ _ _ Hpost) as [_ Hid].
    assert (find_vote db u p = None) as Hf.
    { unfold find_vote. change (head (pair_votes db u p) = None). by rewrite Hnone. }
    set (new := Vote.mk (next_id (map Vote.id (votes db))) value u p).
    assert (db1 = with_votes db (votes db ++ [new])) as Hdb1.
    { unfold db1, post_vote. rewrite Hpost, Hr1, Hid. unfold cast_vote.
      rewrite Hf. unfold add_vote. by rewrite Hf. }
    assert (pair_votes db1 u p = [new]) as Hpair1.
    { rewrite Hdb1. unfold pair_votes. simpl. rewrite filter_app.
      unfold pair_votes in Hnone. rewrite Hnone. simpl.
      by rewrite filter_cons_True. }
    assert (db2 = update_vote db1 new (- value)) as Hdb2.
    { unfold db2, post_vote.
      assert (get_post db1 p = Some post) as -> by (by rewrite Hdb1).
      rewrite Hr2, Hid. unfold cast_vote.
      assert (find_vote db1 u p = Some new) as ->.
      { unfold find_vote. change (head (pair_votes db1 u p) = Some new).
        by rewrite Hpair1. }
      rewrite bool_decide_eq_false_2; [done|]. simpl. lia. }
    exists new. split; [done|]. split; [done|]. split.
    + rewrite Hdb2. unfold pair_votes, update_vote. simpl.
      rewrite filter_map_commute.
      * unfold pair_votes in Hpair1. rewrite Hpair1. simpl.
        by rewrite bool_decide_eq_true_2.
      * intros v. by case_bool_decide.
    + rewrite Hdb2. unfold update_vote. simpl. by rewrite length_map.
Qed.

Lemma post_vote_ledger_witness :
  exists db',
    post_vote sample_db 2 1 (FormBody (Some (chars "-1")))
      = (db', VoteCounts (votes_with db' 1 1) (votes_with db' 1 (-1)))
    /\ db' = with_votes sample_db (votes db')
    /\ ledger_step 2 1 (-1) (votes sample_db) (votes db')
    /\ (pair_votes sample_db 2 1 = [] ->
        post_vote db' 2 1 (FormBody (Some (chars "-1")))
          = (sample_db, VoteCounts (votes_with sample_db 1 1)
                                   (votes_with sample_db 1 (-1)))).
Proof.
  apply (post_vote_ledger sample_db 2 1 (FormBody (Some (chars "-1")))
           (Post.mk 1 (chars "Hello #World") (chars "first post") None 100 100 1)
           (-1)).
  - unfold unique_vote_ids. apply (bool_decide_unpack _). vm_compute. exact I.
  - reflexivity.
  - reflexivity.
Defined.

Lemma votes_stay_unique_witness :
  unique_votes
    (run_votes sample_db
       [(2, 1, JsonBody (Some (chars "up")));
        (2, 1, FormBody (Some (chars "-1")));
        (1, 1, FormBody (Some (chars "1")));
        (1, 9, FormBody (Some (chars "1")));
        (1, 3, FormBody (Some (chars "2")))]).
Proof.
  apply (votes_stay_unique sample_db).
  unfold unique_votes. apply (bool_decide_unpack _). vm_compute. exact I.
Defined.

(** The form transport validates: a form request carries +1 or -1, or
    is answered 400 with the store untouched. *)
Lemma form_vote_validated db u p field :
  (exists value, vote_value (FormBody field) = Some value
                 /\ (value = 1 \/ value = -1))
  \/ (vote_value (FormBody field) = None
      /\ (post_vote db u p (FormBody field)).1 = db).
Proof.
  unfold post_vote. simpl. destruct field as [s|].
  - destruct (PyStr.int s) as [value|].
    + destruct (bool_decide (value = 1)) eqn:E1; simpl.
      * left. exists value. apply bool_decide_eq_true_1 in E1. auto.
      * destruct (bool_decide (value = -1)) eqn:E2.
        -- left. exists value. apply bool_decide_eq_true_1 in E2. auto.
        -- right. split; [done|]. by destruct (get_post db p).
    + right. split; [done|]. by destruct (get_post db p).
  - right. split; [done|]. by destruct (get_post db p).
Qed.

(** The two transports name the same ledger operation. *)
Lemma vote_transports_agree db u p :
  post_vote db u p (JsonBody (Some (chars "up")))
    = post_vote db u p (FormBody (Some (chars "1")))
  /\ post_vote db u p (JsonBody (Some (chars "down")))
    = post_vote db u p (FormBody (Some (chars "-1"))).
Proof. done. Qed.

(** Whatever a JSON body says besides "up" and "down", the ledger runs
    with the value 0. *)
Lemma json_vote_unvalidated db u p post vote_type :
  unique_vote_ids db ->
  get_post db p = Some post ->
  vote_type <> Some (chars "up") ->
  vote_type <> Some (chars "down") ->
  exists db' upvotes downvotes,
    post_vote db u p (JsonBody vote_type) = (db', VoteCounts upvotes downvotes)
    /\ ledger_step u p 0 (votes db) (votes db').
Proof.
  intros Hids Hpost Hup Hdown.
  destruct (get_post_Some _ _ _ Hpost) as [_ Hid].
  destruct (cast_vote_step db u p 0 Hids) as (db' & Hc & _ & Hstep).
  exists db'. unfold post_vote. rewrite Hpost. simpl.
  rewrite !bool_decide_eq_false_2 by done. rewrite Hid, Hc. eauto.
Qed.

(** C1. The JSON transport does not validate.  A JSON body whose
    [vote_type] is neither "up" nor "down" is given the value 0 and goes
    through the ledger: on [sample_db], user 2 voting on post 2 gets the
    counts back instead of a 400, and a vote row of value 0 is stored. *)
Theorem post_vote_json_unvalidated :
  post_vote sample_db 2 2 (JsonBody (Some (chars "sideways")))
  = (with_votes sample_db (votes sample_db ++ [Vote.mk 3 0 2 2]),
     VoteCounts 0 0)
  /\ post_vote sample_db 2 2 (JsonBody None)
  = (with_votes sample_db (votes sample_db ++ [Vote.mk 3 0 2 2]),
     VoteCounts 0 0)
  /\ post_vote sample_db 2 2 (FormBody (Some (chars "0")))
  = (sample_db, VoteBadRequest (chars "Invalid vote value")).
Proof. by vm_compute. Qed.

(** ** Score and counts *)

Lemma foldl_add acc l : foldl Z.add acc l = acc + foldr Z.add 0 l.
Proof.
  revert acc. induction l as [|x l IH]; intros acc; simpl; [lia|].
  rewrite IH. lia.
Qed.

Lemma py_sum_values vs : py_sum (map Vote.value vs) = sum_values vs.
Proof.
  unfold py_sum. rewrite foldl_add. induction vs as [|v r IH]; simpl; [done|].
  simpl in IH. lia.
Qed.

Lemma score_sum db p : score db p = sum_values (post_votes db p).
Proof.
  unfold score. destruct (post_votes db p) as [|v r]; [done|].
  apply py_sum_values.
Qed.

(** C4. The score of a post is the sum of the values of the rows of
    the table [vote] whose [post_id] is the id of the post, 0 when the
    table has no such row; the counts the HTML feed attaches to a post,
    and the counts a vote response carries, are the numbers of that
    post's votes of value +1 and of value -1. *)
Theorem score_and_counts db :
  (forall p,
     score db p
     = sum_values (filter (fun v => Vote.post_id v = Post.id p) (votes db))
     /\ ((forall v, v ∈ votes db -> Vote.post_id v <> Post.id p) ->
         score db p = 0))
  /\ (forall args,
        match index db args with
        | HtmlFeed fps =>
            Forall (fun fp =>
                      fp_upvotes fp = votes_with db (Post.id (fp_post fp)) 1
                      /\ fp_downvotes fp = votes_with db (Post.id (fp_post fp)) (-1))
                   fps
        | HtmlError => True
        end)
  /\ (forall u p req,
        match post_vote db u p req with
        | (db', VoteCounts up down) =>
            up = votes_with db' p 1 /\ down = votes_with db' p (-1)
        | _ => True
        end).
Proof.
  split; [|split].
  - intros p. split; [apply score_sum|]. intros Hnone.
    rewrite score_sum. unfold post_votes.
    by rewrite (filter_none (fun v => Vote.post_id v = Post.id p) (votes db) Hnone).
  - intros args. unfold index.
    destruct (int_arg (arg_page args) 1) as [page|]; [|done].
    destruct (int_arg (arg_per_page args) 10) as [per_page|]; [|done].
    apply Forall_forall. intros fp (post & <- & _)%list_elem_of_In%in_map_iff. simpl.
    by rewrite !count_votes_with.
  - intros u p req. unfold post_vote.
    destruct (get_post db p) as [post|] eqn:Hpost; [|done].
    destruct (get_post_Some _ _ _ Hpost) as [_ ->].
    destruct (vote_value req) as [value|]; [|done].
    destruct (cast_vote db u p value) as [db'|]; [|done].
    by rewrite !count_votes_with.
Qed.

(** ** Feed ordering *)

Lemma key_lt_false db x y : key_lt db x y = false <-> feed_ge db x y.
Proof.
  unfold key_lt, feed_ge.
  rewrite orb_false_iff, andb_false_iff, !Z.ltb_ge, Z.eqb_neq. lia.
Qed.

Lemma key_lt_true db x y : key_lt db x y = true -> feed_ge db y x.
Proof.
  unfold key_lt, feed_ge.
  rewrite orb_true_iff, andb_true_iff, !Z.ltb_lt, Z.eqb_eq. lia.
Qed.

#[local] Instance feed_ge_trans db : Transitive (feed_ge db).
Proof. unfold feed_ge. intros x y z. lia. Qed.

Lemma insert_desc_perm db x l : insert_desc db x l ≡ₚ x :: l.
Proof.
  induction l as [|y r IH]; simpl; [done|].
  destruct (key_lt db x y); [|done].
  rewrite IH. apply Permutation_swap.
Qed.

Lemma sort_posts_perm db l : sort_posts db l ≡ₚ l.
Proof.
  induction l as [|x l IH]; simpl; [done|].
  unfold sort_posts in *. simpl. by rewrite insert_desc_perm, IH.
Qed.

Lemma insert_desc_sorted db x l :
  StronglySorted (feed_ge db) l -> StronglySorted (feed_ge db) (insert_desc db x l).
Proof.
  induction 1 as [|y r Hr IH Hy]; simpl.
  - by repeat constructor.
  - destruct (key_lt db x y) eqn:E.
    + constructor; [done|]. rewrite insert_desc_perm.
      constructor; [by apply key_lt_true | done].
    + apply key_lt_false in E. constructor; [by constructor|].
      constructor; [done|].
      eapply Forall_impl; [exact Hy|]. intros z Hz. by transitivity y.
Qed.

Lemma sort_posts_sorted db l : StronglySorted (feed_ge db) (sort_posts db l).
Proof.
  induction l as [|x l IH]; [constructor|].
  unfold sort_posts in *. simpl. by apply insert_desc_sorted.
Qed.

(** The sort is stable: the posts of one key keep the order they had. *)
Lemma insert_desc_stable db (k : Z * Z) x l :
  filter (fun p => (score db p, Post.created_at p) = k) (insert_desc db x l)
  = filter (fun p => (score db p, Post.created_at p) = k) (x :: l).
Proof.
  induction l as [|y r IH]; simpl; [done|].
  destruct (key_lt db x y) eqn:E; [|done].
  rewrite filter_cons, IH, !filter_cons.
  destruct (decide ((score db y, Post.created_at y) = k)) as [Hy|Hy];
    destruct (decide ((score db x, Post.created_at x) = k)) as [Hx|Hx]; try done.
  exfalso. rewrite <- Hx in Hy. injection Hy as Hs Hc.
  unfold key_lt in E. apply orb_true_iff in E as [E|E].
  - apply Z.ltb_lt in E. lia.
  - apply andb_true_iff in E as [_ E]. apply Z.ltb_lt in E. lia.
Qed.

Lemma sort_posts_stable db (k : Z * Z) l :
  filter (fun p => (score db p, Post.created_at p) = k) (sort_posts db l)
  = filter (fun p => (score db p, Post.created_at p) = k) l.
Proof.
  induction l as [|x l IH]; [done|].
  unfold sort_posts in *. simpl. rewrite insert_desc_stable, !filter_cons, IH. done.
Qed.

Lemma py_slice_sorted db (l : list Post.t) a b :
  StronglySorted (feed_ge db) l -> StronglySorted (feed_ge db) (py_slice l a b).
Proof.
  intros Hl. unfold py_slice.
  set (n := Z.to_nat (_ - _)). set (m := Z.to_nat _).
  rewrite <- (take_drop m l) in Hl. apply StronglySorted_app_1_r in Hl.
  rewrite <- (take_drop n (drop m l)) in Hl. by apply StronglySorted_app_1_l in Hl.
Qed.

(** C7. The list the feed slices is a rearrangement of the selected
    posts in which every post ranks at or above all the posts after it:
    larger scores first, and among equal scores later creation times
    first; so is every page of either route.  Three posts A (score 5), B
    (score 5, created after A) and C (score 3, created last) come out as
    [B, A, C] whatever their order in the store. *)
Theorem feed_order db :
  (forall q,
     sort_posts db (query_all db q) ≡ₚ query_all db q
     /\ StronglySorted (feed_ge db) (sort_posts db (query_all db q)))
  /\ (forall args,
        match api_posts_page db args with
        | Some (page_items, _) => StronglySorted (feed_ge db) page_items
        | None => True
        end)
  /\ (forall args,
        match index db args with
        | HtmlFeed fps => StronglySorted (feed_ge db) (map fp_post fps)
        | HtmlError => True
        end)
  /\ (forall A B C l,
        score db A = 5 -> score db B = 5 -> score db C = 3 ->
        Post.created_at A < Post.created_at B ->
        Post.created_at B < Post.created_at C ->
        l ≡ₚ [A; B; C] ->
        sort_posts db l = [B; A; C]).
Proof.
  split; [|split; [|split]].
  - intros q. split; [apply sort_posts_perm | apply sort_posts_sorted].
  - intros args. unfold api_posts_page.
    destruct (int_arg (arg_page args) 1) as [page|]; [|done].
    destruct (int_arg (arg_per_page args) 10) as [per_page|]; [|done].
    apply py_slice_sorted, sort_posts_sorted.
  - intros args. unfold index.
    destruct (int_arg (arg_page args) 1) as [page|]; [|done].
    destruct (int_arg (arg_per_page args) 10) as [per_page|]; [|done].
    rewrite map_map. simpl. rewrite map_id.
    apply py_slice_sorted, sort_posts_sorted.
  - intros A B C l HA HB HC HAB HBC Hl.
    apply (StronglySorted_unique_strong (feed_ge db)).
    + intros x1 x2 Hx1 Hx2 H12 H21.
      rewrite sort_posts_perm, Hl in Hx1.
      unfold feed_ge in H12, H21.
      assert (score db x1 = score db x2
              /\ Post.created_at x1 = Post.created_at x2) as [Hs Hc] by lia.
      set_unfold. destruct Hx1 as [->|[->|[->|[]]]], Hx2 as [->|[->|[->|[]]]];
        try done; lia.
    + apply sort_posts_sorted.
    + unfold feed_ge. repeat constructor; lia.
    + rewrite sort_posts_perm, Hl. apply Permutation_swap.
Qed.

Lemma feed_order_witness :
  sort_posts ranked_db
    [Post.mk 3 (chars "C") (chars "c") None 300 300 1;
     Post.mk 1 (chars "A") (chars "a") None 100 100 1;
     Post.mk 2 (chars "B") (chars "b") None 200 200 1]
  = [Post.mk 2 (chars "B") (chars "b") None 200 200 1;
     Post.mk 1 (chars "A") (chars "a") None 100 100 1;
     Post.mk 3 (chars "C") (chars "c") None 300 300 1].
Proof.
  apply (feed_order ranked_db); try reflexivity.
  apply (Permutation_cons_append [_; _]).
Defined.

(** The JSON feed of [ranked_db]: the ids come in the order B, A, C. *)
Example ranked_feed :
  match api_posts ranked_db None (mkArgs None None None) with
  | JsonFeed items has_more => (map item_id items, map item_score items, has_more)
  | JsonError => ([], [], true)
  end = ([2; 1; 3], [5; 5; 3], false).
Proof. by vm_compute. Qed.

(** ** Pagination *)

Lemma py_slice_window {A} (l : list A) a b :
  0 <= a -> a <= b ->
  py_slice l a b = take (Z.to_nat (b - a)) (drop (Z.to_nat a) l).
Proof.
  intros Ha Hab. unfold py_slice.
  rewrite !(proj2 (Z.ltb_ge _ 0)) by lia.
  destruct (decide (Z.of_nat (length l) <= a)) as [Hout|Hin].
  - rewrite !drop_ge by lia. by rewrite !take_nil.
  - rewrite (Z.min_l a) by lia.
    destruct (decide (b <= Z.of_nat (length l))) as [Hb|Hb].
    + by rewrite (Z.min_l b) by lia.
    + rewrite (Z.min_r b) by lia.
      rewrite !take_ge; [done | rewrite length_drop; lia..].
Qed.

(** C8. For a page number from 1 and a page size from 0, the feed
    returns the window of the ordered, filtered list that starts at
    [(page-1)*per_page] and has [per_page] places: item [i] of the page is
    item [(page-1)*per_page + i] of the list for [i < per_page], and there
    is no further item; [has_more] holds exactly when [page*per_page] is
    below the length of the list; the HTML route hands the same posts to
    its template.  With 25 posts and pages of 10, page 1 has 10 items and
    [has_more], page 3 has 5 items and no [has_more]. *)
Theorem feed_pagination db args page per_page :
  int_arg (arg_page args) 1 = Some page ->
  int_arg (arg_per_page args) 10 = Some per_page ->
  1 <= page ->
  0 <= per_page ->
  let ordered := sort_posts db (query_all db (q_arg (arg_q args))) in
  let total := Z.of_nat (length ordered) in
  let start := Z.to_nat ((page - 1) * per_page) in
  exists page_items has_more,
    api_posts_page db args = Some (page_items, has_more)
    /\ (forall i : nat,
          page_items !! i =
          if decide (Z.of_nat i < per_page) then ordered !! (start + i)%nat
          else None)
    /\ (has_more = true <-> page * per_page < total)
    /\ (exists fps, index db args = HtmlFeed fps /\ map fp_post fps = page_items)
    /\ (total = 25 -> per_page = 10 ->
        (page = 1 -> length page_items = 10%nat /\ has_more = true)
        /\ (page = 3 -> length page_items = 5%nat /\ has_more = false)).
Proof.
  intros Hpage Hper Hp1 Hpp ordered total start.
  unfold api_posts_page, index. rewrite Hpage, Hper.
  fold ordered. eexists _, _. split; [done|].
  rewrite py_slice_window by nia.
  replace ((page - 1) * per_page + per_page - (page - 1) * per_page)
    with per_page by lia.
  fold start. repeat split.
  - intros i. case_decide as Hi.
    + rewrite lookup_take_lt by lia. by rewrite lookup_drop.
    + by rewrite lookup_take_ge by lia.
  - intros H%Z.ltb_lt. fold total in H. lia.
  - intros H. apply Z.ltb_lt. fold total. lia.
  - eexists. split; [done|]. rewrite map_map. simpl. by rewrite map_id.
  - subst page. rewrite length_take, length_drop. unfold start, total in *. lia.
  - subst page. apply Z.ltb_lt. fold total. lia.
  - subst page. rewrite length_take, length_drop. unfold start, total in *. lia.
  - subst page. apply Z.ltb_ge. fold total. lia.
Qed.

Lemma feed_pagination_witness :
  exists page_items has_more,
    api_posts_page paged_db (mkArgs (Some (chars "3")) (Some (chars "10")) None)
      = Some (page_items, has_more)
    /\ length page_items = 5%nat /\ has_more = false.
Proof.
  destruct (feed_pagination paged_db
              (mkArgs (Some (chars "3")) (Some (chars "10")) None) 3 10)
    as (page_items & has_more & Hpage & _ & _ & _ & H25);
    [reflexivity | reflexivity | lia | lia |].
  exists page_items, has_more. split; [exact Hpage|].
  apply H25; reflexivity.
Defined.

(** The three pages of [paged_db], newest first. *)
Example paged_feed :
  map (fun page =>
         match api_posts paged_db None (mkArgs (Some page) (Some (chars "10")) None) with
         | JsonFeed items has_more => (map item_id items, has_more)
         | JsonError => ([], true)
         end)
    [chars "1"; chars "3"; chars "4"]
  = [([25; 24; 23; 22; 21; 20; 19; 18; 17; 16], true);
     ([5; 4; 3; 2; 1], false);
     ([], false)].
Proof. by vm_compute. Qed.

(** A negative page size is read by the slice from the end of the
    list: page 1 of size -1 holds every post but the last. *)
Example negative_page_size :
  match api_posts_page paged_db (mkArgs None (Some (chars "-1")) None) with
  | Some (page_items, has_more) => (length page_items, has_more)
  | None => (0%nat, false)
  end = (24%nat, true).
Proof. by vm_compute. Qed.

(** ** The two feed routes *)

Lemma serialize_post_id db cur p item :
  serialize_post db cur p = Some item -> item_id item = Post.id p.
Proof.
  unfold serialize_post. destruct (post_author db p); [|done].
  by intros [= <-].
Qed.

Lemma mapM_serialize_ids db cur ps items :
  mapM (serialize_post db cur) ps = Some items ->
  map item_id items = map Post.id ps.
Proof.
  intros H%mapM_Some_1. induction H as [|p item ps items Hp _ IH]; simpl; [done|].
  by rewrite (serialize_post_id _ _ _ _ Hp), IH.
Qed.

(** Serialisation goes through when every post has its author row. *)
Lemma mapM_serialize_total db cur ps :
  Forall (fun p => is_Some (post_author db p)) ps ->
  is_Some (mapM (serialize_post db cur) ps).
Proof.
  intros H. apply mapM_is_Some. eapply Forall_impl; [exact H|].
  intros p [u Hu]. unfold compose, serialize_post. by rewrite Hu.
Qed.

(** C10. For every store and every query string, the HTML route and
    the JSON route select, order and slice the same sequence of posts:
    both fail on a malformed [page] or [per_page], and otherwise the posts
    handed to the template are the [page_items] of the JSON route; the
    items the JSON route returns have the ids of those posts, in order,
    and it returns them whenever every post of the page has its author
    row. *)
Theorem feeds_agree db current_user args :
  html_posts (index db args) = fst <$> api_posts_page db args
  /\ (json_ids (api_posts db current_user args) = None
      \/ json_ids (api_posts db current_user args)
         = map Post.id <$> html_posts (index db args))
  /\ match html_posts (index db args) with
     | Some ps =>
         Forall (fun p => is_Some (post_author db p)) ps ->
         json_ids (api_posts db current_user args) = Some (map Post.id ps)
     | None => True
     end.
Proof.
  unfold api_posts, api_posts_page, index.
  destruct (int_arg (arg_page args) 1) as [page|];
    [|by split; [|split; [left|]]].
  destruct (int_arg (arg_per_page args) 10) as [per_page|];
    [|by split; [|split; [left|]]].
  simpl. rewrite map_map. simpl. rewrite map_id.
  set (page_items := py_slice _ _ _).
  split; [done|].
  destruct (mapM (serialize_post db current_user) page_items) as [items|] eqn:Hm.
  - apply mapM_serialize_ids in Hm. simpl. rewrite Hm. auto.
  - split; [by left|]. intros Hall.
    destruct (mapM_serialize_total db current_user page_items Hall) as [items Hi].
    congruence.
Qed.

Lemma feeds_agree_witness :
  json_ids (api_posts sample_db (Some 1)
              (mkArgs (Some (chars "1")) (Some (chars "2")) (Some (chars "O"))))
  = Some [1; 2].
Proof.
  destruct (feeds_agree sample_db (Some 1)
              (mkArgs (Some (chars "1")) (Some (chars "2")) (Some (chars "O"))))
    as (_ & _ & H).
  apply H. vm_compute. repeat constructor; by eexists.
Defined.

(** ** Search *)








Lemma lower_char_idemp c : PyStr.lower_char (PyStr.lower_char c) = PyStr.lower_char c.
Proof. by destruct c as [[] [] [] [] [] [] [] []]. Qed.

















(** The selection of [sample_db] for the query ["WORLD"]: post 1 by
    its title and its tag, post 2 by its tag, each once. *)
Example search_world :
  map Post.id (query_all sample_db (chars "WORLD")) = [1; 2].
Proof. by vm_compute. Qed.


(** ** Tags of a submission *)

Lemma lower_char_hash c : PyStr.lower_char c = "#"%char <-> c = "#"%char.
Proof. destruct c as [[] [] [] [] [] [] [] []]; vm_compute; split; congruence. Qed.

Lemma lower_lstrip_hash t :
  PyStr.lstrip_char "#" (PyStr.lower t) = PyStr.lower (PyStr.lstrip_char "#" t).
Proof.
  unfold PyStr.lstrip_char, PyStr.lower.
  induction t as [|c t IH]; simpl; [done|].
  case_bool_decide as E; case_bool_decide as E'; simpl; try done.
  - exfalso. by apply E', lower_char_hash.
  - subst c. by destruct E.
Qed.

Lemma manual_tags_spec tags_input :
  manual_tags tags_input = spec_manual_tags (PyStr.lstrip_char "#") tags_input.
Proof.
  unfold manual_tags, spec_manual_tags. do 2 f_equal.
  apply map_ext. intros t. apply lower_lstrip_hash.
Qed.

Lemma manual_tags_nonempty tags_input : [] ∉ manual_tags tags_input.
Proof.
  unfold manual_tags. rewrite elem_of_list_to_set, list_elem_of_filter.
  by intros [H _].
Qed.

Lemma submission_tags_nonempty title content tags_input :
  [] ∉ submission_tags title content tags_input.
Proof.
  unfold submission_tags. rewrite !elem_of_union.
  intros [[H|H]|H]; try by apply extract_hashtags_nonempty in H.
  destruct tags_input; [by apply not_elem_of_empty in H|].
  by apply manual_tags_nonempty in H.
Qed.

(** The loop of [post_new]: every name gets one tag of that name
    attached, the table keeps its rows and the uniqueness of its ids, and
    the attached tags are rows of the table. *)
Lemma attach_tags_spec names table0 attached0 table attached :
  foldl attach_tag (table0, attached0) names = (table, attached) ->
  [] ∉ names ->
  NoDup (map Tag.id table0) ->
  (forall t, t ∈ attached0 -> t ∈ table0) ->
  map Tag.name attached = map Tag.name attached0 ++ names
  /\ NoDup (map Tag.id table)
  /\ (forall t, t ∈ attached -> t ∈ table).
Proof.
  revert table0 attached0.
  induction names as [|name names IH]; intros table0 attached0 Hf Hne Hids Hin.
  - simpl in Hf. injection Hf as <- <-. by rewrite app_nil_r.
  - simpl in Hf.
    assert (name <> []) as Hname by (intros ->; apply Hne; left).
    assert ([] ∉ names) as Hne' by (intros H; apply Hne; by right).
    destruct name as [|c name]; [done|].
    cbn [attach_tag] in Hf.
    destruct (find_tag table0 (c :: name)) as [existing|] eqn:Hfind.
    + apply (head_filter_Some (fun t => Tag.name t = c :: name)) in Hfind
        as [Hex Hnm].
      apply IH in Hf as (Hnames & Hids' & Hin'); try done.
      * split; [|done]. rewrite Hnames, map_app. simpl.
        by rewrite Hnm, <- app_assoc.
      * intros t [Ht| ->%list_elem_of_singleton]%elem_of_app; auto.
    + apply IH in Hf as (Hnames & Hids' & Hin'); try done.
      * split; [|done]. rewrite Hnames, map_app. simpl.
        by rewrite <- app_assoc.
      * rewrite map_app. simpl. apply NoDup_app. split; [done|].
        split; [|apply NoDup_singleton].
        intros i Hi%next_id_fresh ->%list_elem_of_singleton. lia.
      * intros t [Ht| ->%list_elem_of_singleton]%elem_of_app.
        -- apply elem_of_app. left. auto.
        -- apply elem_of_app. right. left.
Qed.

Lemma filter_key_unique {A B} (k : A -> B) `{!EqDecision B} (l : list A) x :
  NoDup (map k l) -> x ∈ l -> filter (fun y => k y = k x) l = [x].
Proof.
  induction l as [|y l IH]; [by intros _ ?%elem_of_nil|].
  simpl. intros [Hy Hl]%NoDup_cons [->|Hx]%elem_of_cons.
  - rewrite filter_cons_True by done. f_equal.
    apply filter_none. intros z Hz Hk. apply Hy. rewrite <- Hk.
    apply list_elem_of_In, in_map. by apply list_elem_of_In.
  - rewrite filter_cons_False; [by apply IH|].
    intros Hk. apply Hy. rewrite Hk.
    apply list_elem_of_In, in_map. by apply list_elem_of_In.
Qed.

(** *** Stripping the tag string before splitting it changes nothing *)

Section SplitStrip.
Variable sep : ascii.
Hypothesis sep_not_space : PyStr.is_space sep = false.

Lemma space_not_sep c : PyStr.is_space c = true -> c <> sep.
Proof. intros Hc ->. congruence. Qed.

Lemma split_cons_ne c r :
  c <> sep ->
  exists h t, PyStr.split sep r = h :: t
              /\ PyStr.split sep (c :: r) = (c :: h) :: t.
Proof.
  intros Hc. simpl. rewrite bool_decide_eq_false_2 by done.
  destruct (PyStr.split sep r) as [|h t] eqn:E; [|by eauto].
  destruct r as [|a r]; [done|]. simpl in E.
  case_bool_decide; [done|]. by destruct (PyStr.split sep r).
Qed.

Lemma split_snoc c r :
  c <> sep ->
  exists init lst, PyStr.split sep r = init ++ [lst]
                   /\ PyStr.split sep (r ++ [c]) = init ++ [lst ++ [c]].
Proof.
  intros Hc. induction r as [|a r (init & lst & Hr & Hrc)].
  - exists [], []. simpl. by rewrite bool_decide_eq_false_2.
  - simpl. rewrite Hr, Hrc. case_bool_decide.
    + by exists ([] :: init), lst.
    + destruct init as [|i init]; simpl.
      * by exists [], (a :: lst).
      * by exists ((a :: i) :: init), lst.
Qed.

Lemma strip_cons_space c t :
  PyStr.is_space c = true -> PyStr.strip (c :: t) = PyStr.strip t.
Proof. intros Hc. unfold PyStr.strip, PyStr.lstrip. simpl. by rewrite Hc. Qed.

Lemma drop_while_snoc f l c :
  f c = true ->
  (PyStr.drop_while f l = [] /\ PyStr.drop_while f (l ++ [c]) = [])
  \/ PyStr.drop_while f (l ++ [c]) = PyStr.drop_while f l ++ [c].
Proof.
  intros Hc. induction l as [|a l IH]; simpl.
  - left. by rewrite Hc.
  - destruct (f a); [done | by right].
Qed.

Lemma rstrip_snoc_space c t :
  PyStr.is_space c = true -> PyStr.rstrip (t ++ [c]) = PyStr.rstrip t.
Proof. intros Hc. unfold PyStr.rstrip. rewrite rev_unit. simpl. by rewrite Hc. Qed.

Lemma strip_snoc_space c t :
  PyStr.is_space c = true -> PyStr.strip (t ++ [c]) = PyStr.strip t.
Proof.
  intros Hc. unfold PyStr.strip, PyStr.lstrip.
  destruct (drop_while_snoc PyStr.is_space t c Hc) as [[-> ->] | ->]; [done|].
  by apply rstrip_snoc_space.
Qed.

Lemma split_lstrip s :
  map PyStr.strip (PyStr.split sep (PyStr.lstrip s))
  = map PyStr.strip (PyStr.split sep s).
Proof.
  unfold PyStr.lstrip. induction s as [|c s IH]; [done|].
  cbn [PyStr.drop_while]. destruct (PyStr.is_space c) eqn:Hc; [|done].
  destruct (split_cons_ne c s (space_not_sep c Hc)) as (h & t & Hs & ->).
  rewrite IH, Hs. simpl. by rewrite strip_cons_space.
Qed.

Lemma split_rstrip s :
  map PyStr.strip (PyStr.split sep (PyStr.rstrip s))
  = map PyStr.strip (PyStr.split sep s).
Proof.
  induction s as [|c s IH] using rev_ind; [done|].
  destruct (PyStr.is_space c) eqn:Hc.
  - rewrite rstrip_snoc_space, IH by done.
    destruct (split_snoc c s (space_not_sep c Hc)) as (init & lst & -> & ->).
    rewrite !map_app. simpl. by rewrite strip_snoc_space.
  - unfold PyStr.rstrip. rewrite rev_unit. simpl. rewrite Hc. simpl.
    by rewrite rev_involutive.
Qed.

Lemma split_strip s :
  map PyStr.strip (PyStr.split sep (PyStr.strip s))
  = map PyStr.strip (PyStr.split sep s).
Proof. unfold PyStr.strip. by rewrite split_rstrip, split_lstrip. Qed.
End SplitStrip.

Lemma spec_manual_tags_strip strip_hash s :
  spec_manual_tags strip_hash (PyStr.strip s) = spec_manual_tags strip_hash s.
Proof.
  unfold spec_manual_tags. do 2 f_equal.
  rewrite <- !(map_map PyStr.strip (fun t => PyStr.lower (strip_hash t))).
  by rewrite split_strip.
Qed.

Lemma submission_tags_spec title content tag_string :
  submission_tags title content (PyStr.strip tag_string)
  = spec_effective_tags (PyStr.lstrip_char "#") title content tag_string.
Proof.
  unfold submission_tags, spec_effective_tags. do 2 f_equal.
  rewrite <- spec_manual_tags_strip.
  destruct (PyStr.strip tag_string) as [|c r] eqn:E; [by vm_compute|].
  apply manual_tags_spec.
Qed.

(** C6. For every accepted post submission, the names of the tags the
    store associates with the new post are the union of the manual tags
    with the hashtags of the title and the hashtags of the content, where
    the manual tags are the pieces of the tag field between commas, each
    stripped of whitespace, then of all its leading ['#'] characters, and
    lowercased, without the empty ones. *)
Theorem post_new_tags db current_user form image_url now db' :
  tags_consistent db ->
  post_new db current_user form image_url now = (db', PostCreated) ->
  exists post,
    posts db' = posts db ++ [post]
    /\ Post.title post = PyStr.strip (default [] (form_title form))
    /\ Post.content post = PyStr.strip (default [] (form_content form))
    /\ post_tag_names db' post
       = spec_effective_tags (PyStr.lstrip_char "#")
           (Post.title post) (Post.content post) (default [] (form_tags form)).
Proof.
  intros [Hids Hrows]. unfold post_new.
  set (title := PyStr.strip (default [] (form_title form))).
  set (content := PyStr.strip (default [] (form_content form))).
  set (tags_input := PyStr.strip (default [] (form_tags form))).
  set (pid := next_id (map Post.id (posts db))).
  set (post := Post.mk pid title content image_url now now current_user).
  destruct (foldl attach_tag (tags db, []) (elements (submission_tags title content tags_input)))
    as [table attached] eqn:Hloop.
  assert (forall db1,
            (mkDB (users db) (posts db ++ [post]) table
               (post_tags db ++ map (fun t => (pid, Tag.id t)) attached)
               (votes db), PostCreated) = (db1, PostCreated) ->
            exists post0,
              posts db1 = posts db ++ [post0]
              /\ Post.title post0 = title /\ Post.content post0 = content
              /\ post_tag_names db1 post0
                 = spec_effective_tags (PyStr.lstrip_char "#")
                     (Post.title post0) (Post.content post0)
                     (default [] (form_tags form))) as Hmain.
  { intros db1 [= <-]. exists post. repeat split.
    apply attach_tags_spec in Hloop as (Hnames & Hids' & Hin); try done.
    - unfold post_tag_names, post_tag_list. simpl.
      rewrite filter_app, filter_none, filter_all; simpl.
      + rewrite flat_map_concat_map, map_map. simpl.
        rewrite <- flat_map_concat_map.
        assert (flat_map (fun t => filter (fun t0 => Tag.id t0 = Tag.id t) table) attached
                = attached) as ->.
        { clear Hnames. induction attached as [|t l IH]; simpl; [done|].
          rewrite (filter_key_unique Tag.id table t Hids') by (apply Hin; left).
          simpl. f_equal. apply IH. intros t0 Ht0. apply Hin. by right. }
        rewrite Hnames. simpl. rewrite list_to_set_elements_L.
        apply submission_tags_spec.
      + by intros pt (t & <- & _)%list_elem_of_In%in_map_iff.
      + intros pt Hpt Heq. rewrite Forall_forall in Hrows.
        specialize (Hrows pt Hpt). apply next_id_fresh in Hrows.
        fold pid in Hrows. simpl in Heq. lia.
    - intros H%elem_of_elements. by apply submission_tags_nonempty in H.
    - by intros t ?%elem_of_nil. }
  destruct title; [done|]. destruct content; [done|]. apply Hmain.
Qed.

Lemma sample_db_consistent : tags_consistent sample_db.
Proof.
  split.
  - apply (bool_decide_unpack _). by vm_compute.
  - repeat constructor; apply list_elem_of_In; simpl; tauto.
Defined.

Lemma post_new_tags_witness :
  exists post,
    posts (post_new sample_db 2
             (mkPostForm (Some (chars " On #Sets and #maps "))
                (Some (chars "<p>see &#39;#stdpp&#39; #SETS</p>"))
                (Some (chars " ##Rocq, #,, proofs ,World ")))
             None 400).1
    = posts sample_db ++ [post]
    /\ post_tag_names
         (post_new sample_db 2
            (mkPostForm (Some (chars " On #Sets and #maps "))
               (Some (chars "<p>see &#39;#stdpp&#39; #SETS</p>"))
               (Some (chars " ##Rocq, #,, proofs ,World ")))
            None 400).1 post
       = list_to_set (map chars ["rocq"; "proofs"; "world"; "sets"; "maps"; "stdpp"]%string).
Proof.
  destruct (post_new_tags sample_db 2
              (mkPostForm (Some (chars " On #Sets and #maps "))
                 (Some (chars "<p>see &#39;#stdpp&#39; #SETS</p>"))
                 (Some (chars " ##Rocq, #,, proofs ,World ")))
              None 400
              (post_new sample_db 2
                 (mkPostForm (Some (chars " On #Sets and #maps "))
                    (Some (chars "<p>see &#39;#stdpp&#39; #SETS</p>"))
                    (Some (chars " ##Rocq, #,, proofs ,World ")))
                 None 400).1 sample_db_consistent)
    as (post & Hposts & Htitle & Hcontent & Htags).
  - by vm_compute.
  - exists post. split; [exact Hposts|].
    rewrite Htags, Htitle, Hcontent. by vm_compute.
Defined.

(** Two leading ['#'] characters both go: the tag field ["##rocq"]
    gives the tag ["rocq"], where stripping one ['#'] would give
    ["#rocq"]. *)
Lemma post_new_tags_counterexample :
  exists form post db',
    post_new sample_db 2 form None 400 = (db', PostCreated)
    /\ posts db' = posts sample_db ++ [post]
    /\ post_tag_names db' post
       <> spec_effective_tags strip_one_hash
            (Post.title post) (Post.content post) (default [] (form_tags form)).
Proof.
  exists (mkPostForm (Some (chars "Notes")) (Some (chars "text"))
            (Some (chars "##rocq"))).
  eexists. eexists. split; [by vm_compute|]. split; [by vm_compute|].
  intros H. apply (f_equal elements) in H. vm_compute in H. discriminate H.
Qed.

(** * Further properties *)

(** ** The vote ledger as a state machine *)

Lemma filter_comm {A} (P Q : A -> Prop) `{!forall x, Decision (P x)}
    `{!forall x, Decision (Q x)} (l : list A) :
  filter P (filter Q l) = filter Q (filter P l).
Proof. rewrite !list_filter_filter. apply list_filter_iff. tauto. Qed.

(** A cast touches the rows of its pair only: a selection of rows that
    does not look at the value and holds no row of the pair is the same
    before and after. *)
Lemma cast_vote_frame db u p value db' (P : Vote.t -> Prop)
    `{!forall v, Decision (P v)} :
  unique_vote_ids db ->
  cast_vote db u p value = Some db' ->
  (forall v x, P (Vote.set_value x v) <-> P v) ->
  (forall v, Vote.user_id v = u -> Vote.post_id v = p -> ~ P v) ->
  filter P (votes db') = filter P (votes db).
Proof.
  intros Hids Hc Hset Hpair. unfold cast_vote in Hc.
  destruct (find_vote db u p) as [v|] eqn:Hf.
  - apply find_vote_Some in Hf as (Hv & Hu & Hp).
    assert (forall r, r ∈ filter P (votes db) -> Vote.id r <> Vote.id v) as Hne.
    { intros r [HP Hr]%list_elem_of_filter Hid.
      assert (r = v) as -> by (by apply (NoDup_map_eq Vote.id (votes db))).
      by apply (Hpair v). }
    case_bool_decide; injection Hc as <-; simpl.
    + rewrite filter_comm. by apply filter_all.
    + rewrite filter_map_commute.
      * rewrite <- (map_id (filter P (votes db))) at 2.
        apply map_ext_in. intros r Hr%list_elem_of_In.
        rewrite bool_decide_eq_false_2; [done | by apply Hne].
      * intros r. case_bool_decide; [apply Hset | done].
  - unfold add_vote in Hc. rewrite Hf in Hc. injection Hc as <-. simpl.
    rewrite filter_app, filter_cons_False, filter_nil, app_nil_r; [done|].
    by apply Hpair.
Qed.

Lemma cast_vote_ids db u p value db' :
  unique_vote_ids db -> cast_vote db u p value = Some db' -> unique_vote_ids db'.
Proof.
  unfold cast_vote, unique_vote_ids. intros Hids.
  destruct (find_vote db u p) as [v|] eqn:Hf.
  - case_bool_decide; intros [= <-]; simpl.
    + by apply NoDup_map_filter.
    + rewrite map_map. erewrite map_ext; [exact Hids|].
      intros r. by case_bool_decide.
  - unfold add_vote. rewrite Hf. intros [= <-]. simpl.
    rewrite map_app. simpl. apply NoDup_app. split; [done|]. split.
    + intros i Hi%next_id_fresh ->%list_elem_of_singleton. lia.
    + apply NoDup_singleton.
Qed.

Lemma unique_votes_pair db u p v :
  unique_votes db -> v ∈ votes db -> Vote.user_id v = u -> Vote.post_id v = p ->
  pair_votes db u p = [v].
Proof.
  intros Hu Hv Hvu Hvp. unfold pair_votes.
  rewrite <- (filter_key_unique vote_key (votes db) v Hu Hv).
  apply list_filter_iff. intros r. unfold vote_key. split.
  - intros [-> ->]. by rewrite Hvu, Hvp.
  - intros [= -> ->]. by rewrite Hvu, Hvp.
Qed.

Lemma cast_vote_pair_value db u p value db' :
  unique_vote_ids db -> unique_votes db ->
  cast_vote db u p value = Some db' ->
  pair_value db' u p = ledger_next (pair_value db u p) value.
Proof.
  intros Hids Hu Hc. unfold pair_value, cast_vote in *.
  destruct (find_vote db u p) as [v|] eqn:Hf; simpl.
  - apply find_vote_Some in Hf as (Hv & Hvu & Hvp).
    pose proof (unique_votes_pair db u p v Hu Hv Hvu Hvp) as Hpair.
    unfold pair_votes in Hpair.
    case_bool_decide as Hval; injection Hc as <-; unfold find_vote; simpl.
    + rewrite filter_comm, Hpair, filter_cons_False, filter_nil; [done|].
      intros H. by apply H.
    + rewrite filter_map_commute.
      * rewrite Hpair. simpl. by rewrite bool_decide_eq_true_2.
      * intros r. by case_bool_decide.
  - unfold add_vote in Hc. rewrite Hf in Hc. injection Hc as <-.
    unfold find_vote in *. simpl. apply head_None in Hf.
    rewrite filter_app, Hf. simpl. by rewrite filter_cons_True.
Qed.


(** X2. On an existing post, a request carrying a value moves the
    value of its (user, post) pair as the three-state ledger says (none
    to the value, the same value to none, another value to the value),
    leaves the rows of every other pair as they were, and keeps both the
    primary key and the one-vote-per-pair constraint. *)
Theorem post_vote_pair_state db u p req post value :
  unique_vote_ids db ->
  unique_votes db ->
  get_post db p = Some post ->
  vote_value req = Some value ->
  let db' := (post_vote db u p req).1 in
  pair_value db' u p = ledger_next (pair_value db u p) value
  /\ (forall u' p', (u', p') <> (u, p) ->
        pair_votes db' u' p' = pair_votes db u' p')
  /\ unique_vote_ids db' /\ unique_votes db'.
Proof.
  intros Hids Hu Hpost Hreq db'.
  destruct (get_post_Some _ _ _ Hpost) as [_ Hid].
  destruct (cast_vote_total db u p value) as [db1 Hc].
  assert (db' = db1) as ->.
  { unfold db', post_vote. by rewrite Hpost, Hreq, Hid, Hc. }
  split; [by apply cast_vote_pair_value|]. split; [|split].
  - intros u' p' Hne. unfold pair_votes.
    apply (cast_vote_frame db u p value db1); try done.
    intros v -> -> [Hu' Hp']. apply Hne. by rewrite Hu', Hp'.
  - by eapply cast_vote_ids.
  - by eapply cast_vote_unique.
Qed.

Lemma post_vote_pair_state_witness :
  pair_value (post_vote sample_db 1 1 (JsonBody (Some (chars "down")))).1 1 1
  = Some (-1)
  /\ pair_value (post_vote sample_db 1 1 (FormBody (Some (chars "1")))).1 1 1
     = None.
Proof.
  split.
  - apply (post_vote_pair_state sample_db 1 1 (JsonBody (Some (chars "down")))
             (Post.mk 1 (chars "Hello #World") (chars "first post") None 100 100 1)
             (-1)); try reflexivity.
    + unfold unique_vote_ids. apply (bool_decide_unpack _). by vm_compute.
    + unfold unique_votes. apply (bool_decide_unpack _). by vm_compute.
  - apply (post_vote_pair_state sample_db 1 1 (FormBody (Some (chars "1")))
             (Post.mk 1 (chars "Hello #World") (chars "first post") None 100 100 1)
             1); try reflexivity.
    + unfold unique_vote_ids. apply (bool_decide_unpack _). by vm_compute.
    + unfold unique_votes. apply (bool_decide_unpack _). by vm_compute.
Defined.

Lemma Forall_filter_keep {A} (P Q : A -> Prop) `{!forall x, Decision (Q x)}
    (l : list A) :
  Forall P l -> Forall P (filter Q l).
Proof.
  rewrite !Forall_forall. intros Hall x [_ Hx]%list_elem_of_filter. auto.
Qed.

Lemma vote_value_range req value :
  vote_value req = Some value -> value = 1 \/ value = 0 \/ value = -1.
Proof.
  destruct req as [vote_type|field]; simpl.
  - intros [= <-]. repeat case_bool_decide; auto.
  - destruct field as [s|]; [|done]. destruct (PyStr.int s) as [v|]; [|done].
    destruct (bool_decide (v = 1)) eqn:E1; simpl.
    + intros [= <-]. apply bool_decide_eq_true_1 in E1. auto.
    + destruct (bool_decide (v = -1)) eqn:E2; [|done].
      intros [= <-]. apply bool_decide_eq_true_1 in E2. auto.
Qed.

Lemma cast_vote_range db u p value db' :
  value = 1 \/ value = 0 \/ value = -1 ->
  Forall vote_in_range (votes db) ->
  cast_vote db u p value = Some db' ->
  Forall vote_in_range (votes db').
Proof.
  intros Hval Hall. unfold cast_vote.
  destruct (find_vote db u p) as [v|] eqn:Hf.
  - case_bool_decide; intros [= <-]; simpl.
    + by apply Forall_filter_keep.
    + apply Forall_forall. intros r (r0 & <- & Hr0)%list_elem_of_In%in_map_iff.
      case_bool_decide; [done|].
      rewrite Forall_forall in Hall. by apply Hall, list_elem_of_In.
  - unfold add_vote. rewrite Hf. intros [= <-]. simpl.
    apply Forall_app. split; [done|]. constructor; [exact Hval | constructor].
Qed.

Lemma post_vote_range db u p req :
  Forall vote_in_range (votes db) ->
  Forall vote_in_range (votes (post_vote db u p req).1).
Proof.
  intros Hall. unfold post_vote.
  destruct (get_post db p) as [post|]; [|done].
  destruct (vote_value req) as [value|] eqn:Hreq; [|done].
  destruct (cast_vote db u (Post.id post) value) as [db'|] eqn:Hc; [|done].
  simpl. apply (cast_vote_range db u (Post.id post) value db'); try done.
  by apply (vote_value_range req).
Qed.

Lemma sum_values_net (vs : list Vote.t) :
  Forall vote_in_range vs ->
  sum_values vs
  = Z.of_nat (length (filter (fun v => Vote.value v = 1) vs))
    - Z.of_nat (length (filter (fun v => Vote.value v = -1) vs)).
Proof.
  induction 1 as [|v vs Hv _ IH]; [done|].
  simpl. rewrite !filter_cons, IH.
  destruct Hv as [Hv|[Hv|Hv]]; rewrite Hv;
    repeat (case_decide; try lia); simpl; lia.
Qed.

(** X3. A vote request on one post leaves the vote rows of every other
    post as they were, and with them its score and its counts; the users,
    posts, tags and tag associations are never touched. *)
Theorem post_vote_other_posts db u p req q :
  unique_vote_ids db ->
  Post.id q <> p ->
  let db' := (post_vote db u p req).1 in
  post_votes db' q = post_votes db q
  /\ score db' q = score db q
  /\ (forall x, votes_with db' (Post.id q) x = votes_with db (Post.id q) x)
  /\ db' = with_votes db (votes db').
Proof.
  intros Hids Hq db'.
  assert (post_votes db' q = post_votes db q /\ db' = with_votes db (votes db'))
    as [Hvotes Hdb].
  { unfold db', post_vote.
    destruct (get_post db p) as [post|] eqn:Hpost;
      [|by rewrite with_votes_same].
    destruct (get_post_Some _ _ _ Hpost) as [_ Hid].
    destruct (vote_value req) as [value|]; [|by rewrite with_votes_same].
    destruct (cast_vote db u (Post.id post) value) as [db1|] eqn:Hc;
      [|by rewrite with_votes_same].
    simpl. split.
    - unfold post_votes.
      apply (cast_vote_frame db u (Post.id post) value db1); try done.
      intros v _ Hvp Hvq. congruence.
    - destruct (cast_vote_step db u (Post.id post) value Hids)
        as (db2 & Hc2 & Hdb2 & _). congruence. }
  split; [done|]. split; [|split; [|done]].
  - unfold score. by rewrite Hvotes.
  - intros x. unfold votes_with. fold (post_votes db' q) (post_votes db q).
    by rewrite Hvotes.
Qed.

Lemma post_vote_other_posts_witness :
  score (post_vote sample_db 2 1 (FormBody (Some (chars "1")))).1
    (Post.mk 3 (chars "Lunch") (chars "soup") None 300 300 1)
  = score sample_db (Post.mk 3 (chars "Lunch") (chars "soup") None 300 300 1).
Proof.
  apply (post_vote_other_posts sample_db 2 1 (FormBody (Some (chars "1")))
           (Post.mk 3 (chars "Lunch") (chars "soup") None 300 300 1)).
  - unfold unique_vote_ids. apply (bool_decide_unpack _). by vm_compute.
  - done.
Defined.

(** X4. When every stored vote has a value among 1, 0 and -1, this is
    still so after any sequence of vote requests, and the score of every
    post is then its number of upvotes minus its number of downvotes. *)
Theorem score_is_net_votes db ops :
  Forall vote_in_range (votes db) ->
  let db' := run_votes db ops in
  Forall vote_in_range (votes db')
  /\ forall p,
       score db' p
       = Z.of_nat (votes_with db' (Post.id p) 1)
         - Z.of_nat (votes_with db' (Post.id p) (-1)).
Proof.
  intros Hall db'.
  assert (Forall vote_in_range (votes db')) as Hall'.
  { unfold db'. clear db'. revert db Hall.
    induction ops as [|op ops IH]; intros db Hall; [done|].
    simpl. apply IH. by apply post_vote_range. }
  split; [done|]. intros p. rewrite score_sum. unfold votes_with.
  apply sum_values_net. by apply Forall_filter_keep.
Qed.

Lemma score_is_net_votes_witness :
  let db' :=
    run_votes sample_db
      [(2, 1, JsonBody (Some (chars "up")));
       (2, 3, JsonBody (Some (chars "sideways")));
       (1, 3, FormBody (Some (chars "-1")))] in
  let p := Post.mk 3 (chars "Lunch") (chars "soup") None 300 300 1 in
  score db' p
  = Z.of_nat (votes_with db' (Post.id p) 1)
    - Z.of_nat (votes_with db' (Post.id p) (-1)).
Proof.
  apply (score_is_net_votes sample_db).
  constructor; [by left|]. constructor; [by right; right|]. constructor.
Defined.

(** ** The pages of the feed *)

Lemma api_posts_page_window db args page per_page :
  int_arg (arg_page args) 1 = Some page ->
  int_arg (arg_per_page args) 10 = Some per_page ->
  1 <= page ->
  0 <= per_page ->
  api_posts_page db args
  = Some (take (Z.to_nat per_page)
            (drop (Z.to_nat ((page - 1) * per_page))
               (sort_posts db (query_all db (q_arg (arg_q args))))),
          page * per_page
          <? Z.of_nat (length (sort_posts db (query_all db (q_arg (arg_q args)))))).
Proof.
  intros Hpage Hper Hp1 Hpp. unfold api_posts_page. rewrite Hpage, Hper.
  rewrite py_slice_window by nia. do 3 f_equal; lia.
Qed.

(** X5. The pages tile the feed: requests for the pages 1, 2, ..., n
    with one page size and one query return, one after the other, the
    first [n * per_page] posts of the ordered, filtered list, so no post is
    skipped or shown twice, and all of the list once the pages reach its
    length. *)
Theorem feed_pages_tile db (pages : list Args) per_page q :
  0 <= per_page ->
  (forall k a, pages !! k = Some a ->
     int_arg (arg_page a) 1 = Some (Z.of_nat k + 1)
     /\ int_arg (arg_per_page a) 10 = Some per_page
     /\ q_arg (arg_q a) = q) ->
  let ordered := sort_posts db (query_all db q) in
  concat (map (page_of db) pages)
  = take (length pages * Z.to_nat per_page) ordered
  /\ ((length ordered <= length pages * Z.to_nat per_page)%nat ->
      concat (map (page_of db) pages) = ordered).
Proof.
  intros Hpp Hpages ordered.
  assert (concat (map (page_of db) pages)
          = take (length pages * Z.to_nat per_page) ordered) as Htile.
  { induction pages as [|a pages IH] using rev_ind; [done|].
    rewrite map_app, concat_app, IH.
    - destruct (Hpages (length pages) a) as (Hpage & Hper & Hq).
      { by rewrite lookup_app_r, Nat.sub_diag by lia. }
      simpl. rewrite app_nil_r. unfold page_of.
      rewrite (api_posts_page_window db a (Z.of_nat (length pages) + 1) per_page)
        by (done || lia).
      simpl. rewrite Hq. fold ordered.
      replace (Z.to_nat ((Z.of_nat (length pages) + 1 - 1) * per_page))
        with (length pages * Z.to_nat per_page)%nat by nia.
      rewrite take_take_drop, length_app. simpl. f_equal. lia.
    - intros k a' Hk. apply Hpages. by apply lookup_app_l_Some. }
  split; [done|]. intros Hlen. rewrite Htile. by apply take_ge.
Qed.

Lemma feed_pages_tile_witness :
  concat (map (page_of paged_db)
            [mkArgs (Some (chars "1")) (Some (chars "10")) None;
             mkArgs (Some (chars " 2 ")) (Some (chars "10")) None;
             mkArgs (Some (chars "+3")) (Some (chars "1_0")) None])
  = sort_posts paged_db (query_all paged_db []).
Proof.
  apply (feed_pages_tile paged_db
           [mkArgs (Some (chars "1")) (Some (chars "10")) None;
            mkArgs (Some (chars " 2 ")) (Some (chars "10")) None;
            mkArgs (Some (chars "+3")) (Some (chars "1_0")) None] 10 []).
  - lia.
  - intros [|[|[|k]]] a; simpl; intros [= <-]; done.
  - apply Nat.leb_le. reflexivity.
Defined.

(** X6. For pages of at least one post, [has_more] tells the truth:
    it is set exactly when the next page is not empty. *)
Theorem has_more_iff_next_page db args next page per_page :
  int_arg (arg_page args) 1 = Some page ->
  int_arg (arg_page next) 1 = Some (page + 1) ->
  int_arg (arg_per_page args) 10 = Some per_page ->
  int_arg (arg_per_page next) 10 = Some per_page ->
  q_arg (arg_q next) = q_arg (arg_q args) ->
  1 <= page ->
  1 <= per_page ->
  exists page_items has_more,
    api_posts_page db args = Some (page_items, has_more)
    /\ (has_more = true <-> page_of db next <> []).
Proof.
  intros Hpage Hnext Hper Hper' Hq Hp1 Hpp.
  rewrite (api_posts_page_window db args page per_page) by (done || lia).
  eexists _, _. split; [done|]. unfold page_of.
  rewrite (api_posts_page_window db next (page + 1) per_page) by (done || lia).
  simpl. rewrite Hq.
  set (ordered := sort_posts db (query_all db (q_arg (arg_q args)))).
  replace (page + 1 - 1) with page by lia.
  rewrite Z.ltb_lt. split.
  - intros Hlt Hnil. apply take_nil_inv in Hnil as [Hnil|Hnil]; [lia|].
    apply drop_nil_inv in Hnil. lia.
  - intros Hne. destruct (decide (page * per_page < Z.of_nat (length ordered)));
      [done|].
    exfalso. apply Hne. rewrite drop_ge by lia. apply take_nil.
Qed.

Lemma has_more_iff_next_page_witness :
  exists page_items has_more,
    api_posts_page paged_db (mkArgs (Some (chars "2")) (Some (chars "10")) None)
      = Some (page_items, has_more)
    /\ (has_more = true <->
        page_of paged_db (mkArgs (Some (chars "3")) (Some (chars "10")) None) <> []).
Proof.
  apply (has_more_iff_next_page paged_db
           (mkArgs (Some (chars "2")) (Some (chars "10")) None)
           (mkArgs (Some (chars "3")) (Some (chars "10")) None) 2 10);
    (reflexivity || lia).
Defined.

Lemma py_slice_stop_0 {A} (l : list A) a : py_slice l a 0 = [].
Proof.
  unfold py_slice. rewrite (proj2 (Z.ltb_ge 0 0)) by lia.
  match goal with |- take ?n _ = _ => replace n with 0%nat; [done|] end.
  destruct (a <? 0) eqn:E; lia.
Qed.

(** X7. Pages out of range are empty: page 0 for every page size, and
    every page that starts at or after the end of the list, which also
    reports no further page. *)
Theorem feed_pages_out_of_range db args page per_page :
  int_arg (arg_page args) 1 = Some page ->
  int_arg (arg_per_page args) 10 = Some per_page ->
  let total := Z.of_nat (length (sort_posts db (query_all db (q_arg (arg_q args))))) in
  exists page_items has_more,
    api_posts_page db args = Some (page_items, has_more)
    /\ (page = 0 -> page_items = [] /\ (has_more = true <-> 0 < total))
    /\ (1 <= page -> 0 <= per_page -> total <= (page - 1) * per_page ->
        page_items = [] /\ has_more = false).
Proof.
  intros Hpage Hper total. unfold api_posts_page. rewrite Hpage, Hper.
  eexists _, _. split; [done|]. split.
  - intros ->. split.
    + replace ((0 - 1) * per_page + per_page) with 0 by lia.
      apply py_slice_stop_0.
    + fold total. replace ((0 - 1) * per_page + per_page) with 0 by lia.
      apply Z.ltb_lt.
  - intros Hp1 Hpp Hend. fold total. split.
    + rewrite py_slice_window by nia.
      rewrite drop_ge by (fold total; lia). apply take_nil.
    + apply Z.ltb_ge. nia.
Qed.

Lemma feed_pages_out_of_range_witness :
  exists page_items has_more,
    api_posts_page paged_db (mkArgs (Some (chars "4")) None None)
      = Some (page_items, has_more)
    /\ page_items = [] /\ has_more = false.
Proof.
  destruct (feed_pages_out_of_range paged_db
              (mkArgs (Some (chars "4")) None None) 4 10)
    as (page_items & has_more & Hpage & _ & Hend); [reflexivity..|].
  exists page_items, has_more. split; [exact Hpage|].
  apply Hend; [lia | lia |]. by vm_compute.
Defined.

(** ** Queries of blanks, and ties *)

Lemma drop_while_all f s :
  Forall (fun c => f c = true) s -> PyStr.drop_while f s = [].
Proof. induction 1 as [|c s Hc _ IH]; simpl; [done|]. by rewrite Hc. Qed.

Lemma strip_blank s :
  Forall (fun c => PyStr.is_space c = true) s -> PyStr.strip s = [].
Proof.
  intros Hs. unfold PyStr.strip, PyStr.lstrip. by rewrite drop_while_all.
Qed.

(** X8. A query made of whitespace only is no query: both routes
    answer it as they answer a request without [q], and the list they
    page through is then a rearrangement of all the posts of the store. *)
Theorem blank_query_is_no_query db current_user args :
  Forall (fun c => PyStr.is_space c = true) (default [] (arg_q args)) ->
  let plain := mkArgs (arg_page args) (arg_per_page args) None in
  index db args = index db plain
  /\ api_posts db current_user args = api_posts db current_user plain
  /\ sort_posts db (query_all db (q_arg (arg_q args))) ≡ₚ posts db.
Proof.
  intros Hq plain.
  assert (q_arg (arg_q args) = []) as Hnone by (by apply strip_blank).
  unfold api_posts, api_posts_page, index. simpl.
  change (q_arg None) with (@nil ascii). rewrite Hnone.
  split; [done|]. split; [done|]. apply sort_posts_perm.
Qed.

Lemma blank_query_is_no_query_witness :
  api_posts sample_db None
    (mkArgs None None (Some [" "; "009"; "010"; "028"]%char))
  = api_posts sample_db None (mkArgs None None None).
Proof.
  apply (blank_query_is_no_query sample_db None
           (mkArgs None None (Some [" "; "009"; "010"; "028"]%char))).
  by repeat constructor.
Defined.

(** X9. The ordering of the feed is stable: the selected posts of one
    score and one creation time stand in the ordered list in the order in
    which the query returned them. *)
Theorem feed_order_stable db q (k : Z * Z) :
  filter (fun p => (score db p, Post.created_at p) = k)
    (sort_posts db (query_all db q))
  = filter (fun p => (score db p, Post.created_at p) = k) (query_all db q).
Proof.
  induction (query_all db q) as [|x l IH]; [done|].
  unfold sort_posts in *. simpl.
  by rewrite insert_desc_stable, !filter_cons, IH.
Qed.

(** ** Canonical tags *)

Lemma lower_idemp s : PyStr.lower (PyStr.lower s) = PyStr.lower s.
Proof.
  unfold PyStr.lower. rewrite map_map. apply map_ext.
  intros c. apply lower_char_idemp.
Qed.

Lemma lower_char_word c :
  PyStr.is_word c = true ->
  PyStr.is_word (PyStr.lower_char c) = true
  /\ PyStr.is_upper (PyStr.lower_char c) = false.
Proof. destruct c as [[] [] [] [] [] [] [] []]; vm_compute; intuition congruence. Qed.

(** X10. On text of characters up to code point 255, every extracted
    hashtag is canonical: not empty, made of word characters only, none
    of them an uppercase letter, so that lowercasing it again changes
    nothing. *)
Theorem extract_hashtags_canonical text t :
  t ∈ extract_hashtags text ->
  t <> []
  /\ Forall (fun c => PyStr.is_word c = true /\ PyStr.is_upper c = false) t
  /\ PyStr.lower t = t.
Proof.
  unfold extract_hashtags. destruct text as [|c0 r]; [by intros ?%not_elem_of_empty|].
  rewrite elem_of_list_to_set, list_elem_of_In, in_map_iff.
  intros (w & <- & Hw%list_elem_of_In%finditer_spec).
  split; [by apply (hashtag_run_nonempty (c0 :: r))|]. split; [|apply lower_idemp].
  destruct Hw as (pre & post & _ & _ & _ & Hall & _).
  unfold PyStr.lower. apply Forall_forall.
  intros c (c1 & <- & Hc1%list_elem_of_In)%list_elem_of_In%in_map_iff.
  rewrite Forall_forall in Hall. by apply lower_char_word, Hall.
Qed.

Lemma extract_hashtags_canonical_witness :
  let t := "233"%char :: chars "t" ++ ["233"%char] in
  t <> []
  /\ Forall (fun c => PyStr.is_word c = true /\ PyStr.is_upper c = false) t
  /\ PyStr.lower t = t.
Proof.
  apply (extract_hashtags_canonical
           (chars "R2-D2 &#38; #" ++ "201"%char :: chars "t" ++ "233"%char :: chars "!")).
  apply (bool_decide_unpack _). by vm_compute.
Defined.

Lemma submission_tags_lower title content tags_input t :
  t ∈ submission_tags title content tags_input -> PyStr.lower t = t.
Proof.
  unfold submission_tags. rewrite !elem_of_union.
  intros [[H|H]|H]; try by apply extract_hashtags_canonical in H as (_ & _ & ?).
  destruct tags_input as [|c r]; [by apply not_elem_of_empty in H|].
  unfold manual_tags in H.
  apply elem_of_list_to_set, list_elem_of_filter in H as [_ H].
  apply list_elem_of_In, in_map_iff in H as (x & <- & _).
  by rewrite lower_lstrip_hash, lower_idemp.
Qed.

(** The loop of [post_new] and [post_edit] on the tag table: rows are
    only added at the end, with ids above all the ids there were, and
    canonical names stay canonical. *)
Lemma attach_tags_table names table0 attached0 table attached :
  foldl attach_tag (table0, attached0) names = (table, attached) ->
  (forall n, n ∈ names -> PyStr.lower n = n) ->
  exists added,
    table = table0 ++ added
    /\ (forall t i, t ∈ added -> i ∈ map Tag.id table0 -> i < Tag.id t)
    /\ (canonical_tags table0 -> canonical_tags table).
Proof.
  revert table0 attached0.
  induction names as [|name names IH]; intros table0 attached0 Hf Hlow.
  - simpl in Hf. injection Hf as <- <-. exists []. rewrite app_nil_r.
    split; [done|]. split; [by intros t i ?%elem_of_nil | done].
  - simpl in Hf.
    assert (forall n, n ∈ names -> PyStr.lower n = n) as Hlow'
      by (intros n Hn; apply Hlow; by right).
    destruct name as [|c name]; [by apply (IH table0 attached0)|].
    cbn [attach_tag] in Hf.
    destruct (find_tag table0 (c :: name)) as [existing|] eqn:Hfind;
      [by apply (IH table0 (attached0 ++ [existing]))|].
    apply IH in Hf as (added & -> & Hids & Hcan); [|done].
    exists (Tag.mk (next_id (map Tag.id table0)) (c :: name) :: added).
    split; [by rewrite <- app_assoc|]. split.
    + intros t i [->|Ht]%elem_of_cons Hi.
      * simpl. by apply next_id_fresh.
      * apply (Hids t i Ht). rewrite map_app.
        apply elem_of_app. by left.
    + intros [Hnd Hall]. apply Hcan. split.
      * rewrite map_app. simpl. apply NoDup_app. split; [done|].
        split; [|apply NoDup_singleton].
        intros n Hn ->%list_elem_of_singleton.
        apply list_elem_of_In, in_map_iff in Hn as (t & Ht & Hin).
        apply list_elem_of_In in Hin.
        by apply (head_filter_None (fun t => Tag.name t = c :: name)
                    table0 Hfind t Hin).
      * apply Forall_app. split; [done|]. constructor; [|constructor].
        split; [|done]. apply (Hlow (c :: name)). left.
Qed.

Lemma canonical_no_case_variants table t1 t2 :
  canonical_tags table -> t1 ∈ table -> t2 ∈ table ->
  PyStr.lower (Tag.name t1) = PyStr.lower (Tag.name t2) ->
  Tag.name t1 = Tag.name t2.
Proof.
  intros [_ Hall] H1 H2. rewrite Forall_forall in Hall.
  destruct (Hall t1 H1) as [-> _]. by destruct (Hall t2 H2) as [-> _].
Qed.

(** X11. A post submission never removes or changes a tag: the tag
    table only grows at its end.  When the tag names of the store are
    distinct, lowercase and not empty, they still are after the
    submission, so that no two tags differ by case only. *)
Theorem post_new_keeps_tags db current_user form image_url now :
  canonical_tags (tags db) ->
  let db' := (post_new db current_user form image_url now).1 in
  (exists added, tags db' = tags db ++ added)
  /\ canonical_tags (tags db')
  /\ (forall t1 t2, t1 ∈ tags db' -> t2 ∈ tags db' ->
        PyStr.lower (Tag.name t1) = PyStr.lower (Tag.name t2) ->
        Tag.name t1 = Tag.name t2).
Proof.
  intros Hcan db'.
  assert ((exists added, tags db' = tags db ++ added) /\ canonical_tags (tags db'))
    as [Hgrow Hcan'].
  { unfold db', post_new.
    set (title := PyStr.strip (default [] (form_title form))).
    set (content := PyStr.strip (default [] (form_content form))).
    set (tags_input := PyStr.strip (default [] (form_tags form))).
    destruct (foldl attach_tag (tags db, [])
                (elements (submission_tags title content tags_input)))
      as [table attached] eqn:Hloop.
    apply attach_tags_table in Hloop as (added & -> & _ & Hcan').
    - destruct title; [split; [by exists []; rewrite app_nil_r | done]|].
      destruct content; [split; [by exists []; rewrite app_nil_r | done]|].
      simpl. split; [by exists added | by apply Hcan'].
    - intros n Hn%elem_of_elements. by apply submission_tags_lower in Hn. }
  split; [done|]. split; [done|].
  intros t1 t2. by apply canonical_no_case_variants.
Qed.

Lemma post_new_keeps_tags_witness :
  canonical_tags
    (tags (post_new sample_db 1
             (mkPostForm (Some (chars "On #World and #PROOFS"))
                (Some (chars "text")) (Some (chars "World, #Tactics")))
             None 500).1).
Proof.
  apply (post_new_keeps_tags sample_db 1
           (mkPostForm (Some (chars "On #World and #PROOFS"))
              (Some (chars "text")) (Some (chars "World, #Tactics")))
           None 500).
  split.
  - apply (bool_decide_unpack _). by vm_compute.
  - by repeat constructor.
Defined.

(** ** Posts keep what is theirs *)

Lemma flat_map_ext_in {A B} (f g : A -> list B) (l : list A) :
  (forall x, x ∈ l -> f x = g x) -> flat_map f l = flat_map g l.
Proof.
  induction l as [|x l IH]; intros Hfg; [done|].
  simpl. rewrite Hfg by left. f_equal. apply IH. intros y Hy. apply Hfg. by right.
Qed.

(** The tags of a post are read the same from a store whose tag table
    grew at the end, with fresh ids, and whose association rows for the
    post are the same. *)
Lemma post_tag_list_frame db db' q added :
  tags_referenced db ->
  tags db' = tags db ++ added ->
  (forall t i, t ∈ added -> i ∈ map Tag.id (tags db) -> i < Tag.id t) ->
  filter (fun pt => pt.1 = Post.id q) (post_tags db')
  = filter (fun pt => pt.1 = Post.id q) (post_tags db) ->
  post_tag_list db' q = post_tag_list db q.
Proof.
  intros Href Htags Hids Hrows. unfold post_tag_list. rewrite Hrows, Htags.
  apply flat_map_ext_in. intros pt [_ Hpt]%list_elem_of_filter.
  rewrite filter_app, (filter_none _ added), app_nil_r; [done|].
  intros t Ht Heq. unfold tags_referenced in Href. rewrite Forall_forall in Href.
  destruct (Href pt Hpt) as [_ Hi]. specialize (Hids t _ Ht Hi). lia.
Qed.

Lemma score_same_votes db db' q : votes db' = votes db -> score db' q = score db q.
Proof. intros H. unfold score, post_votes. by rewrite H. Qed.

(** The two ways a submission ends. *)
Lemma post_new_cases db current_user form image_url now :
  post_new db current_user form image_url now = (db, PostRejected)
  \/ exists table attached,
       foldl attach_tag (tags db, [])
         (elements
            (submission_tags (PyStr.strip (default [] (form_title form)))
               (PyStr.strip (default [] (form_content form)))
               (PyStr.strip (default [] (form_tags form)))))
       = (table, attached)
       /\ post_new db current_user form image_url now
          = (mkDB (users db)
               (posts db
                ++ [Post.mk (next_id (map Post.id (posts db)))
                      (PyStr.strip (default [] (form_title form)))
                      (PyStr.strip (default [] (form_content form)))
                      image_url now now current_user])
               table
               (post_tags db
                ++ map (fun t => (next_id (map Post.id (posts db)), Tag.id t))
                     attached)
               (votes db),
             PostCreated).
Proof.
  unfold post_new.
  destruct (PyStr.strip (default [] (form_title form))) as [|c1 t1]; [by left|].
  destruct (PyStr.strip (default [] (form_content form))) as [|c2 t2]; [by left|].
  right.
  destruct (foldl attach_tag _ _) as [table attached]. by exists table, attached.
Qed.

(** X12. A post submission leaves every post of the store what it
    had: its row, its tags and its score; users and votes are not
    touched, and the new post is added at the end with an id of its own. *)
Theorem post_new_frame db current_user form image_url now q :
  tags_referenced db ->
  q ∈ posts db ->
  let db' := (post_new db current_user form image_url now).1 in
  q ∈ posts db'
  /\ post_tag_list db' q = post_tag_list db q
  /\ score db' q = score db q
  /\ users db' = users db /\ votes db' = votes db
  /\ (exists new, posts db' = posts db ++ new
                  /\ forall p, p ∈ new -> Post.id p ∉ map Post.id (posts db)).
Proof.
  intros Href Hq db'. unfold db'.
  destruct (post_new_cases db current_user form image_url now)
    as [-> | (table & attached & Hloop & ->)].
  { simpl. repeat split; try done. exists []. rewrite app_nil_r.
    split; [done | by intros p ?%elem_of_nil]. }
  set (pid := next_id (map Post.id (posts db))) in *.
  assert (forall i, i ∈ map Post.id (posts db) -> i <> pid) as Hfresh.
  { intros i Hin%next_id_fresh. fold pid in Hin. lia. }
  apply attach_tags_table in Hloop as (added & Htable & Hids & _).
  - simpl. split; [apply elem_of_app; by left|]. split; [|split; [done|]].
    + apply (post_tag_list_frame db _ q added); try done. simpl.
      rewrite filter_app, (filter_none _ (map _ attached)), app_nil_r; [done|].
      intros pt (t & <- & _)%list_elem_of_In%in_map_iff Heq. simpl in Heq.
      apply (Hfresh (Post.id q)); [|done].
      apply list_elem_of_In, in_map. by apply list_elem_of_In.
    + split; [done|]. split; [done|]. eexists. split; [done|].
      intros p ->%list_elem_of_singleton Hin. by apply (Hfresh pid).
  - intros n Hn%elem_of_elements. by apply submission_tags_lower in Hn.
Qed.

Lemma post_new_frame_witness :
  let q := Post.mk 2 (chars "Rocq notes") (chars "on <b>proofs</b>") None 200 200 2 in
  post_tag_list
    (post_new sample_db 1
       (mkPostForm (Some (chars "New #Proofs")) (Some (chars "and #tactics"))
          None) None 500).1 q
  = post_tag_list sample_db q.
Proof.
  apply (post_new_frame sample_db 1
           (mkPostForm (Some (chars "New #Proofs")) (Some (chars "and #tactics"))
              None) None 500).
  - repeat constructor; apply list_elem_of_In; simpl; tauto.
  - apply list_elem_of_In. simpl. tauto.
Defined.

(** ** Editing a post *)

(** The four ways an edit ends. *)
Lemma post_edit_cases db current_user post_id form image_url now :
  let title := PyStr.strip (default [] (form_title form)) in
  let content := PyStr.strip (default [] (form_content form)) in
  let tags_input := PyStr.strip (default [] (form_tags form)) in
  (get_post db post_id = None
   /\ post_edit db current_user post_id form image_url now = (db, EditNotFound))
  \/ (exists post,
        get_post db post_id = Some post /\ Post.author_id post <> current_user
        /\ post_edit db current_user post_id form image_url now
           = (db, EditForbidden))
  \/ (exists post,
        get_post db post_id = Some post /\ Post.author_id post = current_user
        /\ (title = [] \/ content = [])
        /\ post_edit db current_user post_id form image_url now
           = (db, EditRejected))
  \/ (exists post table attached,
        get_post db post_id = Some post /\ Post.author_id post = current_user
        /\ title <> [] /\ content <> []
        /\ foldl attach_tag (tags db, [])
             (elements (submission_tags title content tags_input))
           = (table, attached)
        /\ post_edit db current_user post_id form image_url now
           = (mkDB (users db)
                (map (fun row =>
                        if bool_decide (Post.id row = Post.id post)
                        then edit_row post title content
                               (match image_url with
                                | Some url => Some url
                                | None => Post.image_path post
                                end) now row
                        else row)
                   (posts db))
                table
                (clear_post_tags db post
                 ++ map (fun t => (Post.id post, Tag.id t)) attached)
                (votes db),
              EditUpdated)).
Proof.
  intros title content tags_input. unfold post_edit.
  destruct (get_post db post_id) as [post|]; [|by left].
  right. case_bool_decide as Hauth; [left; by exists post|].
  right. assert (Post.author_id post = current_user) as Hme
    by (destruct (decide (Post.author_id post = current_user)); [done|tauto]).
  fold title content tags_input.
  destruct title as [|c1 t1] eqn:Ht; [left; exists post; by auto|].
  destruct content as [|c2 t2] eqn:Hc; [left; exists post; by auto|].
  right. destruct (foldl attach_tag _ _) as [table attached].
  by exists post, table, attached.
Qed.




Lemma post_tag_list_attached db q pid table attached kept posts' :
  Post.id q = pid ->
  NoDup (map Tag.id table) ->
  (forall t, t ∈ attached -> t ∈ table) ->
  filter (fun pt => pt.1 = pid) kept = [] ->
  post_tag_list
    (mkDB (users db) posts' table
       (kept ++ map (fun t => (pid, Tag.id t)) attached) (votes db))
    q
  = attached.
Proof.
  intros Hq Hids Hin Hkept. unfold post_tag_list. simpl.
  rewrite Hq, filter_app, Hkept, filter_all; simpl.
  - rewrite flat_map_concat_map, map_map. simpl. rewrite <- flat_map_concat_map.
    induction attached as [|t l IH]; simpl; [done|].
    rewrite (filter_key_unique Tag.id table t Hids) by (apply Hin; left).
    simpl. f_equal. apply IH. intros t0 Ht0. apply Hin. by right.
  - by intros pt (t & <- & _)%list_elem_of_In%in_map_iff.
Qed.

Lemma clear_post_tags_own db post :
  tags_referenced db ->
  filter (fun pt => pt.1 = Post.id post) (clear_post_tags db post) = [].
Proof.
  intros Href. apply filter_none. unfold clear_post_tags.
  intros pt [Hkeep Hpt]%list_elem_of_filter Hown. apply Hkeep. split; [done|].
  unfold tags_referenced in Href. rewrite Forall_forall in Href.
  destruct (Href pt Hpt) as [_ Htag].
  apply list_elem_of_In, in_map_iff in Htag as (t & Hid & Ht).
  apply list_elem_of_In, in_map_iff. exists t. split; [done|].
  unfold post_tag_list. apply in_flat_map. exists pt. split.
  - apply list_elem_of_In, list_elem_of_filter. by split.
  - apply list_elem_of_In, list_elem_of_filter. split; [done|].
    by apply list_elem_of_In.
Qed.

(** X14. An edit that goes through rewrites the post in place: the
    post of that id keeps its id, its author and its creation time, has
    the stripped title and content of the form, and the names of its tags
    are the manual tags of the form together with the hashtags of the new
    title and of the new content, whatever its tags were before. *)
Theorem post_edit_replaces db current_user post_id form image_url now db' old :
  NoDup (map Tag.id (tags db)) ->
  tags_referenced db ->
  get_post db post_id = Some old ->
  post_edit db current_user post_id form image_url now = (db', EditUpdated) ->
  exists post,
    get_post db' post_id = Some post
    /\ Post.id post = post_id
    /\ Post.author_id post = current_user
    /\ Post.created_at post = Post.created_at old
    /\ Post.title post = PyStr.strip (default [] (form_title form))
    /\ Post.content post = PyStr.strip (default [] (form_content form))
    /\ post_tag_names db' post
       = spec_effective_tags (PyStr.lstrip_char "#")
           (Post.title post) (Post.content post) (default [] (form_tags form)).
Proof.
  intros Hids Href Hold Hedit.
  destruct (post_edit_cases db current_user post_id form image_url now)
    as [[Hg E] | [(post & Hg & Ha & E) | [(post & Hg & Ha & Hb & E)
       | (post & table & attached & Hg & Ha & _ & _ & Hloop & E)]]];
    rewrite E in Hedit; try discriminate Hedit.
  injection Hedit as <-. rewrite Hold in Hg. injection Hg as ->.
  destruct (get_post_Some _ _ _ Hold) as [_ Hid].
  set (image_path := match image_url with
                     | Some url => Some url
                     | None => Post.image_path post
                     end).
  set (title := PyStr.strip (default [] (form_title form))) in *.
  set (content := PyStr.strip (default [] (form_content form))) in *.
  set (upd := fun row : Post.t =>
                if bool_decide (Post.id row = Post.id post)
                then edit_row post title content image_path now row else row).
  exists (edit_row post title content image_path now post).
  split; [|repeat split; try done].
  - unfold get_post. simpl. fold upd.
    rewrite (filter_map_commute (fun p => Post.id p = post_id) upd).
    + unfold get_post in Hold. apply head_Some in Hold as (l' & ->). simpl.
      unfold upd. by rewrite bool_decide_eq_true_2.
    + intros row. unfold upd. by case_bool_decide.
  - apply attach_tags_spec in Hloop as (Hnames & Hids' & Hin); try done.
    + unfold post_tag_names.
      change (Post.title (edit_row post title content image_path now post))
        with title.
      change (Post.content (edit_row post title content image_path now post))
        with content.
      assert (post_tag_list
                (mkDB (users db) (map upd (posts db)) table
                   (clear_post_tags db post
                    ++ map (fun t => (Post.id post, Tag.id t)) attached)
                   (votes db))
                (edit_row post title content image_path now post)
              = attached) as ->.
      { apply (post_tag_list_attached db
                 (edit_row post title content image_path now post)
                 (Post.id post)); try done.
        by apply clear_post_tags_own. }
      rewrite Hnames. simpl. rewrite list_to_set_elements_L.
      apply submission_tags_spec.
    + intros H%elem_of_elements. by apply submission_tags_nonempty in H.
    + by intros t ?%elem_of_nil.
Qed.

Lemma sample_db_referenced : tags_referenced sample_db.
Proof. repeat constructor; apply list_elem_of_In; simpl; tauto. Defined.

Lemma post_edit_replaces_witness :
  exists post,
    get_post
      (post_edit sample_db 2 2
         (mkPostForm (Some (chars " Rocq #Notes ")) (Some (chars "more"))
            (Some (chars "#Stdpp")))
         None 600).1 2
    = Some post
    /\ post_tag_names
         (post_edit sample_db 2 2
            (mkPostForm (Some (chars " Rocq #Notes ")) (Some (chars "more"))
               (Some (chars "#Stdpp")))
            None 600).1 post
       = list_to_set (map chars ["stdpp"; "notes"]%string).
Proof.
  destruct (post_edit_replaces sample_db 2 2
              (mkPostForm (Some (chars " Rocq #Notes ")) (Some (chars "more"))
                 (Some (chars "#Stdpp")))
              None 600
              (post_edit sample_db 2 2
                 (mkPostForm (Some (chars " Rocq #Notes ")) (Some (chars "more"))
                    (Some (chars "#Stdpp")))
                 None 600).1
              (Post.mk 2 (chars "Rocq notes") (chars "on <b>proofs</b>") None 200 200 2))
    as (post & Hget & _ & _ & _ & Htitle & Hcontent & Htags).
  - apply (bool_decide_unpack _). by vm_compute.
  - apply sample_db_referenced.
  - reflexivity.
  - by vm_compute.
  - exists post. split; [exact Hget|].
    rewrite Htags, Htitle, Hcontent. by vm_compute.
Defined.

(** X15. An edit leaves every other post what it had: its row, its
    tags and its score; and the score of the edited post is not touched
    either. *)
Theorem post_edit_frame db current_user post_id form image_url now q :
  tags_referenced db ->
  q ∈ posts db ->
  Post.id q <> post_id ->
  let db' := (post_edit db current_user post_id form image_url now).1 in
  q ∈ posts db'
  /\ post_tag_list db' q = post_tag_list db q
  /\ forall p, score db' p = score db p.
Proof.
  intros Href Hq Hne db'. unfold db'.
  destruct (post_edit_cases db current_user post_id form image_url now)
    as [[Hg ->] | [(post & Hg & Ha & ->) | [(post & Hg & Ha & Hb & ->)
       | (post & table & attached & Hg & Ha & _ & _ & Hloop & ->)]]];
    try done.
  destruct (get_post_Some _ _ _ Hg) as [_ Hid]. simpl.
  apply attach_tags_table in Hloop as (added & Htable & Hids & _).
  - split; [|split; [|done]].
    + apply list_elem_of_In, in_map_iff. exists q. split.
      * rewrite bool_decide_eq_false_2; [done | congruence].
      * by apply list_elem_of_In.
    + apply (post_tag_list_frame db _ q added); try done. simpl.
      rewrite filter_app, (filter_none _ (map _ attached)), app_nil_r.
      * unfold clear_post_tags. rewrite filter_comm. apply filter_all.
        intros pt [Hown _]%list_elem_of_filter [Hpost _]. congruence.
      * intros pt (t & <- & _)%list_elem_of_In%in_map_iff Heq. simpl in Heq.
        congruence.
  - intros n Hn%elem_of_elements. by apply submission_tags_lower in Hn.
Qed.

Lemma post_edit_frame_witness :
  let q := Post.mk 1 (chars "Hello #World") (chars "first post") None 100 100 1 in
  post_tag_list
    (post_edit sample_db 2 2
       (mkPostForm (Some (chars "Rocq")) (Some (chars "more")) (Some (chars "world")))
       None 600).1 q
  = post_tag_list sample_db q.
Proof.
  apply (post_edit_frame sample_db 2 2
           (mkPostForm (Some (chars "Rocq")) (Some (chars "more")) (Some (chars "world")))
           None 600).
  - apply sample_db_referenced.
  - apply list_elem_of_In. simpl. tauto.
  - done.
Defined.

(** ** Deleting a post *)


(** X17. After a deletion that went through, the post is gone with
    all that hung on it: no post of that id, no vote and no comment on it
    and, when every association row names a tag of the store, no
    association row of it.  Every other post is still there with its
    tags, and with its votes and its comments when vote ids and comment
    ids are unique. *)
Theorem post_delete_cascades s current_user post_id s' :
  post_delete s current_user post_id = (s', DeleteDone) ->
  get_post (site_db s') post_id = None
  /\ filter (fun v => Vote.post_id v = post_id) (votes (site_db s')) = []
  /\ filter (fun c => Comment.post_id c = post_id) (site_comments s') = []
  /\ (tags_referenced (site_db s) ->
      filter (fun pt => pt.1 = post_id) (post_tags (site_db s')) = [])
  /\ forall q, q ∈ posts (site_db s) -> Post.id q <> post_id ->
       q ∈ posts (site_db s')
       /\ post_tag_list (site_db s') q = post_tag_list (site_db s) q
       /\ (unique_vote_ids (site_db s) ->
           post_votes (site_db s') q = post_votes (site_db s) q)
       /\ (NoDup (map Comment.id (site_comments s)) ->
           post_comments s' q = post_comments s q).
Proof.
  unfold post_delete.
  destruct (get_post (site_db s) post_id) as [post|] eqn:Hpost; [|done].
  destruct (get_post_Some _ _ _ Hpost) as [_ Hid].
  case_bool_decide as Ha; [done|]. intros [= <-]. simpl.
  split; [|split; [|split; [|split]]].
  - unfold get_post. simpl. apply head_None. rewrite filter_comm.
    apply filter_none. intros p [Hne _]%list_elem_of_filter. congruence.
  - rewrite filter_comm. apply filter_none.
    intros v [Hv Hin]%list_elem_of_filter Hnot. apply Hnot.
    apply list_elem_of_In, in_map, list_elem_of_In, list_elem_of_filter.
    split; [congruence | done].
  - rewrite filter_comm. apply filter_none.
    intros c [Hc Hin]%list_elem_of_filter Hnot. apply Hnot.
    apply list_elem_of_In, in_map, list_elem_of_In, list_elem_of_filter.
    split; [congruence | done].
  - intros Href. rewrite <- Hid. by apply clear_post_tags_own.
  - intros q Hq Hne. split; [|split; [|split]].
    + apply list_elem_of_filter. split; [congruence | done].
    + unfold post_tag_list. simpl. f_equal.
      unfold clear_post_tags. rewrite filter_comm. apply filter_all.
      intros pt [Hown _]%list_elem_of_filter [Hp _]. congruence.
    + intros Hids. unfold post_votes. simpl. rewrite filter_comm.
      apply filter_all. intros v [Hv Hin]%list_elem_of_filter Hchild.
      apply list_elem_of_In, in_map_iff in Hchild as (w & Hw & Hwin).
      apply list_elem_of_In, list_elem_of_filter in Hwin as [Hwp Hwin].
      assert (w = v) as -> by (by apply (NoDup_map_eq Vote.id (votes (site_db s)))).
      congruence.
    + intros Hids. unfold post_comments. simpl. rewrite filter_comm.
      apply filter_all. intros c [Hc Hin]%list_elem_of_filter Hchild.
      apply list_elem_of_In, in_map_iff in Hchild as (w & Hw & Hwin).
      apply list_elem_of_In, list_elem_of_filter in Hwin as [Hwp Hwin].
      assert (w = c) as -> by (by apply (NoDup_map_eq Comment.id (site_comments s))).
      congruence.
Qed.

Lemma post_delete_cascades_witness :
  let s := mkSite sample_db
             [Comment.mk 1 (chars "nice") 150 2 1;
              Comment.mk 2 (chars "soup?") 350 2 3] in
  get_post (site_db (post_delete s 1 3).1) 3 = None
  /\ filter (fun v => Vote.post_id v = 3) (votes (site_db (post_delete s 1 3).1)) = []
  /\ filter (fun c => Comment.post_id c = 3) (site_comments (post_delete s 1 3).1) = [].
Proof.
  intros s.
  destruct (post_delete_cascades s 1 3 (post_delete s 1 3).1) as (H1 & H2 & H3 & _);
    [by vm_compute | done].
Defined.

(** ** Comments *)




(** X19. The JSON route of comments answers as the form route does
    whenever its [post_id] is not 0 and names a post; without a [post_id],
    with the [post_id] 0 or with a blank content it answers 400 and
    changes nothing. *)
Theorem comment_routes_agree s current_user post_id field now :
  (post_id <> 0 -> is_Some (get_post (site_db s) post_id) ->
   post_comment_api s current_user (Some post_id) field now
   = match post_comment s current_user post_id field now with
     | (s', CommentBadRequest _) =>
         (s', CommentBadRequest (chars "Missing post_id or content"))
     | r => r
     end)
  /\ post_comment_api s current_user None field now
     = (s, CommentBadRequest (chars "Missing post_id or content"))
  /\ post_comment_api s current_user (Some 0) field now
     = (s, CommentBadRequest (chars "Missing post_id or content"))
  /\ (PyStr.strip (default [] field) = [] ->
      post_comment_api s current_user (Some post_id) field now
      = (s, CommentBadRequest (chars "Missing post_id or content"))).
Proof.
  unfold post_comment_api, post_comment. split; [|split; [|split]].
  - intros Hne [post Hpost]. rewrite Hpost.
    destruct (PyStr.strip (default [] field)) as [|c r]; [done|].
    by rewrite bool_decide_eq_false_2.
  - by destruct (PyStr.strip (default [] field)).
  - by destruct (PyStr.strip (default [] field)).
  - by intros ->.
Qed.

Lemma comment_routes_agree_witness :
  let s := mkSite sample_db [Comment.mk 1 (chars "nice") 150 2 1] in
  let bob := User.mk 2 (chars "bob") (chars "bob@example.org") in
  post_comment_api s bob (Some 3) (Some (chars "  tasty  ")) 360
  = (mkSite sample_db
       [Comment.mk 1 (chars "nice") 150 2 1; Comment.mk 2 (chars "tasty") 360 2 3],
     CommentCreated 2 (chars "tasty") (chars "bob") 360).
Proof.
  intros s bob.
  destruct (comment_routes_agree s bob 3 (Some (chars "  tasty  ")) 360)
    as [H _].
  rewrite H; [by vm_compute | done | by eexists].
Defined.

(** ** The profile page *)

Lemma insert_recent_perm x l : insert_recent x l ≡ₚ x :: l.
Proof.
  induction l as [|y r IH]; simpl; [done|].
  destruct (Post.created_at x <? Post.created_at y); [|done].
  rewrite IH. apply Permutation_swap.
Qed.

Lemma newest_first_perm l : newest_first l ≡ₚ l.
Proof.
  induction l as [|x l IH]; [done|].
  unfold newest_first in *. simpl. by rewrite insert_recent_perm, IH.
Qed.

Lemma insert_recent_sorted x l :
  StronglySorted not_older l -> StronglySorted not_older (insert_recent x l).
Proof.
  induction 1 as [|y r Hr IH Hy]; simpl.
  - by repeat constructor.
  - destruct (Post.created_at x <? Post.created_at y) eqn:E.
    + apply Z.ltb_lt in E. constructor; [done|]. rewrite insert_recent_perm.
      constructor; [unfold not_older; lia | done].
    + apply Z.ltb_ge in E. constructor; [by constructor|].
      constructor; [done|].
      eapply Forall_impl; [exact Hy|]. unfold not_older. intros z Hz. lia.
Qed.

Lemma newest_first_sorted l : StronglySorted not_older (newest_first l).
Proof.
  induction l as [|x l IH]; [constructor|].
  unfold newest_first in *. simpl. by apply insert_recent_sorted.
Qed.

(** X20. The profile of an unknown user is answered by the redirect,
    never by a 404.  The profile of a user shows at most 20 posts, all of
    them posts of the store written by that user, later ones first, each
    with its numbers of upvotes and downvotes; a post of the user that is
    not shown is no later than any post shown, and all the posts of the
    user are shown when there are at most 20. *)
Theorem profile_page db user_id :
  match profile db user_id with
  | ProfileRedirect => forall u, u ∈ users db -> User.id u <> user_id
  | ProfilePage user fps =>
      let theirs := filter (fun p => Post.author_id p = user_id) (posts db) in
      (user ∈ users db /\ User.id user = user_id)
      /\ (length fps <= 20)%nat
      /\ Forall (fun fp =>
                   fp_post fp ∈ theirs
                   /\ fp_upvotes fp = votes_with db (Post.id (fp_post fp)) 1
                   /\ fp_downvotes fp = votes_with db (Post.id (fp_post fp)) (-1))
           fps
      /\ StronglySorted not_older (map fp_post fps)
      /\ (exists rest,
            map fp_post fps ++ rest ≡ₚ theirs
            /\ Forall (fun p => Forall (fun shown => not_older shown p)
                                  (map fp_post fps)) rest
            /\ ((length theirs <= 20)%nat -> rest = []))
  end.
Proof.
  unfold profile.
  destruct (head (filter (fun u => User.id u = user_id) (users db)))
    as [user|] eqn:Hu.
  - apply (head_filter_Some (fun u => User.id u = user_id)) in Hu as [Hin Hid].
    rewrite Hid. cbv beta iota zeta.
    set (theirs := filter (fun p => Post.author_id p = user_id) (posts db)).
    set (sorted := newest_first theirs).
    rewrite map_map. simpl. rewrite map_id, length_map.
    pose proof (newest_first_sorted theirs) as Hsorted. fold sorted in Hsorted.
    pose proof (newest_first_perm theirs) as Hperm. fold sorted in Hperm.
    rewrite <- (take_drop 20 sorted) in Hsorted, Hperm.
    split; [done|]. split; [rewrite length_take; lia|]. split; [|split].
    + apply Forall_forall.
      intros fp (post & <- & Hp%list_elem_of_In)%list_elem_of_In%in_map_iff.
      simpl. rewrite !count_votes_with. split; [|done].
      rewrite <- Hperm. apply elem_of_app. by left.
    + by apply StronglySorted_app_1_l in Hsorted.
    + exists (drop 20 sorted). split; [done|]. split.
      * apply Forall_forall. intros p Hp. apply Forall_forall. intros x Hx.
        by apply (StronglySorted_app_1_elem_of not_older _ _ x p Hsorted).
      * intros Hlen. apply drop_ge.
        unfold sorted. by rewrite newest_first_perm.
  - intros u Hin Hid.
    by apply (head_filter_None (fun u => User.id u = user_id) (users db) Hu u).
Qed.

(** The profile of user 1 in [paged_db]: the 20 latest of the 25
    posts. *)
Example profile_paged :
  match profile paged_db 1 with
  | ProfilePage _ fps => map (fun fp => Post.id (fp_post fp)) fps
  | ProfileRedirect => []
  end = map Z.of_nat (rev (seq 6 20)).
Proof. by vm_compute. Qed.

(** ** Accounts *)

(** ** Validation patterns *)

Lemma matches_cat a b s :
  matches (Re.Cat a b) s <->
  exists s1 s2, s = s1 ++ s2 /\ matches a s1 /\ matches b s2.
Proof.
  split.
  - inversion 1; subst. eauto.
  - intros (s1 & s2 & -> & Ha & Hb). by constructor.
Qed.

Lemma matches_class f s :
  matches (Re.Class f) s <-> exists c, s = [c] /\ f c = true.
Proof.
  split.
  - inversion 1; subst. eauto.
  - intros (c & -> & Hc). by constructor.
Qed.

Lemma nullable_spec r : Re.nullable r = true <-> matches r [].
Proof.
  induction r as [| |f|a IHa b IHb|a IHa b IHb|a IH]; simpl.
  - split; [done | inversion 1].
  - split; [constructor | done].
  - split; [done | inversion 1].
  - rewrite andb_true_iff, IHa, IHb. split.
    + intros [Ha Hb]. by apply (MCat a b [] []).
    + inversion 1 as [| |? ? s1 s2 Ha Hb| | | |]; subst.
      match goal with E : _ ++ _ = [] |- _ => apply app_eq_nil in E as [-> ->] end.
      done.
  - rewrite orb_true_iff, IHa, IHb. split.
    + intros [H|H]; [by apply MAltL | by apply MAltR].
    + inversion 1; subst; auto.
  - split; [constructor | done].
Qed.

Lemma star_cons_inv a c s :
  matches (Re.Star a) (c :: s) ->
  exists s1 s2, s = s1 ++ s2 /\ matches a (c :: s1) /\ matches (Re.Star a) s2.
Proof.
  intros H. remember (Re.Star a) as r eqn:Hr. remember (c :: s) as cs eqn:Hcs.
  revert s Hcs.
  induction H as [| | | | | |a' s1 s2 H1 _ H2 IH2]; intros s0 Hcs;
    try discriminate.
  injection Hr as ->. destruct s1 as [|c1 s1]; simpl in Hcs.
  - by apply IH2.
  - injection Hcs as -> <-. by exists s1, s2.
Qed.

Lemma deriv_spec c r s : matches (Re.deriv c r) s <-> matches r (c :: s).
Proof.
  revert s. induction r as [| |f|a IHa b IHb|a IHa b IHb|a IH]; intros s; simpl.
  - split; inversion 1.
  - split; inversion 1.
  - destruct (f c) eqn:E; split.
    + inversion 1; subst. by constructor.
    + inversion 1; subst. constructor.
    + inversion 1.
    + inversion 1; subst. congruence.
  - split.
    + inversion 1 as [| | |? ? ? Hl|? ? ? Hr| |]; subst.
      * inversion Hl as [| |? ? s1 s2 Ha Hb| | | |]; subst.
        apply IHa in Ha. by apply (MCat a b (c :: s1) s2).
      * destruct (Re.nullable a) eqn:E; [|inversion Hr].
        apply nullable_spec in E. apply IHb in Hr.
        by apply (MCat a b [] (c :: s)).
    + intros (s1 & s2 & E & Ha & Hb)%matches_cat.
      destruct s1 as [|c1 s1]; simpl in E.
      * subst s2. apply MAltR. apply nullable_spec in Ha. rewrite Ha.
        by apply IHb.
      * injection E as -> ->. apply MAltL. constructor; [by apply IHa | done].
  - split.
    + inversion 1; subst; [apply MAltL; by apply IHa | apply MAltR; by apply IHb].
    + inversion 1; subst; [apply MAltL; by apply IHa | apply MAltR; by apply IHb].
  - split.
    + inversion 1 as [| |? ? s1 s2 Ha Hb| | | |]; subst.
      apply IH in Ha. by apply (MStarS a (c :: s1) s2).
    + intros (s1 & s2 & -> & Ha & Hs)%star_cons_inv.
      constructor; [by apply IH | done].
Qed.

(** The matcher decides the language of the pattern. *)
Lemma fullmatch_spec r s : Re.fullmatch r s = true <-> matches r s.
Proof.
  unfold Re.fullmatch. revert r. induction s as [|c s IH]; intros r; simpl.
  - apply nullable_spec.
  - rewrite IH. apply deriv_spec.
Qed.

Lemma matches_star_class f s :
  matches (Re.Star (Re.Class f)) s <-> Forall (fun c => f c = true) s.
Proof.
  split.
  - intros H. remember (Re.Star (Re.Class f)) as r eqn:Hr.
    induction H as [| | | | | |a s1 s2 H1 _ H2 IH2]; try discriminate;
      [constructor|].
    injection Hr as ->. apply matches_class in H1 as (c & -> & Hc).
    constructor; [done | by apply IH2].
  - induction 1 as [|c s Hc _ IH]; [constructor|].
    apply (MStarS _ [c] s); [by constructor | done].
Qed.

Lemma matches_plus_class f s :
  matches (Re.plus (Re.Class f)) s <->
  s <> [] /\ Forall (fun c => f c = true) s.
Proof.
  unfold Re.plus. rewrite matches_cat. split.
  - intros (s1 & s2 & -> & (c & -> & Hc)%matches_class & Hs%matches_star_class).
    split; [done | by constructor].
  - intros [Hne Hall]. destruct Hall as [|c s Hc Hall]; [done|].
    exists [c], s. split; [done|]. split; [by constructor|].
    by apply matches_star_class.
Qed.

Lemma matches_power_class f n s :
  matches (Re.power (Re.Class f) n) s <->
  length s = n /\ Forall (fun c => f c = true) s.
Proof.
  revert s. induction n as [|n IH]; intros s; simpl.
  - split.
    + inversion 1. by split.
    + intros [Hl _]. destruct s; [constructor | done].
  - rewrite matches_cat. split.
    + intros (s1 & s2 & -> & (c & -> & Hc)%matches_class & [Hl Hall]%IH).
      simpl. split; [by rewrite Hl | by constructor].
    + intros [Hl Hall]. destruct Hall as [|c s Hc Hall]; [done|].
      exists [c], s. split; [done|]. split; [by constructor|].
      apply IH. split; [by injection Hl | done].
Qed.

Lemma matches_upto_class f n s :
  matches (Re.upto (Re.Class f) n) s <->
  (length s <= n)%nat /\ Forall (fun c => f c = true) s.
Proof.
  revert s. induction n as [|n IH]; intros s; simpl.
  - split.
    + inversion 1. by split.
    + intros [Hl _]. destruct s; [constructor | simpl in Hl; lia].
  - split.
    + inversion 1 as [| | |? ? ? Hl|? ? ? Hr| |]; subst.
      * inversion Hl. split; [simpl; lia | constructor].
      * apply matches_cat in Hr
          as (s1 & s2 & -> & (c & -> & Hc)%matches_class & [Hl Hall]%IH).
        simpl. split; [lia | by constructor].
    + intros [Hl Hall]. destruct Hall as [|c s Hc Hall].
      * apply MAltL. constructor.
      * apply MAltR. apply matches_cat. exists [c], s. split; [done|].
        split; [by constructor|]. apply IH. simpl in Hl. split; [lia | done].
Qed.

(** X21. A username passes the check of the registration exactly when
    it has between 3 and 20 characters, each a letter, a digit or an
    underscore. *)
Theorem username_pattern_spec s :
  Re.fullmatch username_pattern s = true <->
  (3 <= length s <= 20)%nat /\ Forall (fun c => username_char c = true) s.
Proof.
  rewrite fullmatch_spec. unfold username_pattern, Re.range.
  rewrite matches_cat. split.
  - intros (s1 & s2 & -> & [H1 Ha]%matches_power_class & [H2 Hb]%matches_upto_class).
    rewrite length_app. split; [lia | by apply Forall_app].
  - intros [Hl Hall]. exists (take 3 s), (drop 3 s).
    split; [by rewrite take_drop|]. split.
    + apply matches_power_class. split; [rewrite length_take; lia|].
      by apply Forall_take.
    + apply matches_upto_class. split; [rewrite length_drop; lia|].
      by apply Forall_drop.
Qed.

(** X22. An email passes the check of the registration exactly when
    it reads [local@domain.tld] with three parts that are not empty and
    hold neither ['@'] nor whitespace (the domain and the tld may hold
    further dots); such a text has its one ['@'] after the first
    character. *)
Theorem email_pattern_spec s :
  Re.fullmatch email_pattern s = true <->
  exists local domain tld,
    s = local ++ "@"%char :: domain ++ "."%char :: tld
    /\ email_part local /\ email_part domain /\ email_part tld.
Proof.
  rewrite fullmatch_spec. unfold email_pattern, email_part. split.
  - intros (local & r1 & -> & Hl%matches_plus_class & H1)%matches_cat.
    apply matches_cat in H1 as (at_ & r2 & -> & (c & -> & Hc)%matches_class & H2).
    apply bool_decide_eq_true_1 in Hc as ->.
    apply matches_cat in H2 as (domain & r3 & -> & Hd%matches_plus_class & H3).
    apply matches_cat in H3 as (dot & tld & -> & (c & -> & Hc)%matches_class & Ht).
    apply bool_decide_eq_true_1 in Hc as ->. apply matches_plus_class in Ht.
    by exists local, domain, tld.
  - intros (local & domain & tld & -> & Hl & Hd & Ht).
    apply matches_cat. exists local, ("@"%char :: domain ++ "."%char :: tld).
    split; [done|]. split; [by apply matches_plus_class|].
    apply (MCat _ _ ["@"%char]); [by constructor|].
    apply matches_cat. exists domain, ("."%char :: tld).
    split; [done|]. split; [by apply matches_plus_class|].
    apply (MCat _ _ ["."%char]); [by constructor|].
    by apply matches_plus_class.
Qed.

Example username_examples :
  map (fun s => Re.fullmatch username_pattern (chars s))
    ["ab"; "abc"; "a_b_9"; "twenty_characters_xx"; "twentyone_characters_"; "a b c"]%string
  = [false; true; true; true; false; false].
Proof. by vm_compute. Qed.

Example email_examples :
  map (fun s => Re.fullmatch email_pattern (chars s))
    ["a@b.c"; "a@b"; "a@@b.c"; "a b@c.d"; "@b.c"; "a@b.c.d"; "a@.c"; "a@b."]%string
  = [true; false; false; false; false; true; false; false].
Proof. by vm_compute. Qed.

(** ** Registration *)

Lemma dict_set_keys k v d k' :
  k' ∈ map fst (dict_set k v d) <-> k' = k \/ k' ∈ map fst d.
Proof.
  induction d as [|[k0 v0] d IH]; simpl.
  - rewrite list_elem_of_singleton. split; [by left | by intros [|?%elem_of_nil]].
  - case_bool_decide as E; simpl; rewrite !elem_of_cons.
    + subst k0. tauto.
    + rewrite IH. tauto.
Qed.

Lemma dict_set_nonempty k v d : dict_set k v d <> [].
Proof. destruct d as [|[k0 v0] d]; simpl; [done|]. by case_bool_decide. Qed.

(** The keys of [errors] after the five checks. *)
Lemma register_errors_keys accounts username email password k :
  k ∈ map fst (register_errors accounts username email password) <->
  (k = chars "username"
   /\ (Re.fullmatch username_pattern username = false
       \/ is_Some (find_username accounts username)))
  \/ (k = chars "email"
      /\ (Re.fullmatch email_pattern email = false
          \/ is_Some (find_email accounts email)))
  \/ (k = chars "password" /\ (length password < 6)%nat).
Proof.
  unfold register_errors.
  destruct (Re.fullmatch username_pattern username);
    destruct (Re.fullmatch email_pattern email);
    destruct (Nat.ltb_spec (length password) 6);
    destruct (find_username accounts username) as [a1|];
    destruct (find_email accounts email) as [a2|];
    cbn [negb];
    rewrite ?dict_set_keys; cbn [map]; rewrite ?elem_of_nil;
    unfold is_Some; split; intros H';
    repeat match goal with
           | H : _ \/ _ |- _ => destruct H
           | H : _ /\ _ |- _ => destruct H
           | H : ex _ |- _ => destruct H
           | H : False |- _ => destruct H
           end; subst; try discriminate; try lia; eauto 8.
Qed.

Lemma register_cases accounts form password_hash now :
  let username := PyStr.strip (default [] (reg_username form)) in
  let email := PyStr.lower (PyStr.strip (default [] (reg_email form))) in
  let password := default [] (reg_password form) in
  let errors := register_errors accounts username email password in
  (errors = []
   /\ register accounts form password_hash now
      = (accounts ++ [Account.mk (next_id (map Account.id accounts)) username email
                        password_hash None (chars "system") now],
         RegisterDone (next_id (map Account.id accounts))))
  \/ (errors <> []
      /\ register accounts form password_hash now
         = (accounts,
            RegisterInvalid (map (fun kv => kv.1 ++ chars ": " ++ kv.2) errors))).
Proof.
  intros username email password errors. unfold register.
  fold username email password errors.
  destruct errors as [|kv errors']; [by left | by right].
Qed.

Lemma find_username_Some accounts username :
  is_Some (find_username accounts username) <->
  exists a, a ∈ accounts /\ Account.username a = username.
Proof.
  unfold find_username. split.
  - intros [a Ha]. apply head_Some_elem_of, list_elem_of_filter in Ha as [Hn Hin].
    by exists a.
  - intros (a & Ha & Hn).
    destruct (head _) as [b|] eqn:E; [by eexists|].
    apply head_None in E.
    assert (a ∈ filter (fun a => Account.username a = username) accounts) as Hin
      by (by apply list_elem_of_filter).
    rewrite E in Hin. by apply elem_of_nil in Hin.
Qed.

Lemma find_email_Some accounts email :
  is_Some (find_email accounts email) <->
  exists a, a ∈ accounts /\ Account.email a = email.
Proof.
  unfold find_email. split.
  - intros [a Ha]. apply head_Some_elem_of, list_elem_of_filter in Ha as [Hn Hin].
    by exists a.
  - intros (a & Ha & Hn).
    destruct (head _) as [b|] eqn:E; [by eexists|].
    apply head_None in E.
    assert (a ∈ filter (fun a => Account.email a = email) accounts) as Hin
      by (by apply list_elem_of_filter).
    rewrite E in Hin. by apply elem_of_nil in Hin.
Qed.

(** A flash is about a field exactly when the field is a key of
    [errors]. *)
Lemma flash_for_key accounts username email password field :
  field = chars "username" \/ field = chars "email" \/ field = chars "password" ->
  flash_for field
    (map (fun kv => kv.1 ++ chars ": " ++ kv.2)
       (register_errors accounts username email password))
  <-> field ∈ map fst (register_errors accounts username email password).
Proof.
  intros Hfield. unfold flash_for. split.
  - intros (msg & Hin). apply list_elem_of_In, in_map_iff in Hin as ([k v] & Heq & Hkv).
    simpl in Heq.
    assert (k ∈ map fst (register_errors accounts username email password)) as Hk.
    { apply list_elem_of_In, in_map_iff. by exists (k, v). }
    assert (k = field) as <-; [|done].
    apply register_errors_keys in Hk.
    destruct Hk as [[-> _] | [[-> _] | [-> _]]];
      destruct Hfield as [-> | [-> | ->]]; done.
  - intros Hin. apply list_elem_of_In, in_map_iff in Hin as ([k v] & <- & Hkv).
    exists v. apply list_elem_of_In, in_map_iff. by exists (k, v).
Qed.

(** X23. A registration goes through exactly when the username and
    the email pass their checks, the password has six characters or
    more, and neither the username nor the email is in use: then one
    account is appended, with an unused id, the stripped username, the
    stripped lowercased email, the hash of the password and the theme
    ["system"].  Otherwise the accounts are left as they were and the
    flashes name the fields at fault: the username when it fails its check
    or is in use, the email likewise, the password when it is short. *)
Theorem register_outcome accounts form password_hash now :
  let username := PyStr.strip (default [] (reg_username form)) in
  let email := PyStr.lower (PyStr.strip (default [] (reg_email form))) in
  let password := default [] (reg_password form) in
  let bad_username :=
    Re.fullmatch username_pattern username = false
    \/ exists a, a ∈ accounts /\ Account.username a = username in
  let bad_email :=
    Re.fullmatch email_pattern email = false
    \/ exists a, a ∈ accounts /\ Account.email a = email in
  let bad_password := (length password < 6)%nat in
  match register accounts form password_hash now with
  | (accounts', RegisterDone user_id) =>
      ~ bad_username /\ ~ bad_email /\ ~ bad_password
      /\ (user_id ∉ map Account.id accounts)
      /\ accounts'
         = accounts ++ [Account.mk user_id username email password_hash None
                          (chars "system") now]
  | (accounts', RegisterInvalid flashes) =>
      accounts' = accounts
      /\ (bad_username \/ bad_email \/ bad_password)
      /\ (flash_for (chars "username") flashes <-> bad_username)
      /\ (flash_for (chars "email") flashes <-> bad_email)
      /\ (flash_for (chars "password") flashes <-> bad_password)
  end.
Proof.
  intros username email password bad_username bad_email bad_password.
  pose proof (register_errors_keys accounts username email password) as Hkeys.
  setoid_rewrite find_username_Some in Hkeys.
  setoid_rewrite find_email_Some in Hkeys.
  fold bad_username bad_email bad_password in Hkeys.
  destruct (register_cases accounts form password_hash now)
    as [[Hnil ->] | [Hne ->]].
  - cbv zeta in Hnil. fold username email password in Hnil.
    rewrite Hnil in Hkeys. simpl in Hkeys.
    assert (forall k, ~ (k = chars "username" /\ bad_username
                         \/ k = chars "email" /\ bad_email
                         \/ k = chars "password" /\ bad_password)) as Hno.
    { intros k Hk. apply Hkeys in Hk. by apply elem_of_nil in Hk. }
    split; [intros H; apply (Hno (chars "username")); auto|].
    split; [intros H; apply (Hno (chars "email")); auto|].
    split; [intros H; apply (Hno (chars "password")); auto|].
    split; [|done].
    intros Hin. apply next_id_fresh in Hin. lia.
  - cbv zeta in Hne. fold username email password in Hne.
    split; [done|].
    assert (forall field,
              field = chars "username" \/ field = chars "email"
              \/ field = chars "password" ->
              flash_for field
                (map (fun kv => kv.1 ++ chars ": " ++ kv.2)
                   (register_errors accounts username email password))
              <-> (field = chars "username" /\ bad_username
                   \/ field = chars "email" /\ bad_email
                   \/ field = chars "password" /\ bad_password)) as Hflash.
    { intros field Hfield. by rewrite flash_for_key, Hkeys. }
    split.
    + destruct (register_errors accounts username email password)
        as [|[k v] errors'] eqn:E; [done|].
      assert (k ∈ map fst ((k, v) :: errors')) as Hk by (simpl; left).
      apply Hkeys in Hk. tauto.
    + split; [|split].
      * split; [|intros H; apply Hflash; by auto].
        intros H. apply Hflash in H; [|by auto].
        destruct H as [[_ H] | [[H _] | [H _]]]; [done | discriminate H..].
      * split; [|intros H; apply Hflash; by auto].
        intros H. apply Hflash in H; [|by auto].
        destruct H as [[H _] | [[_ H] | [H _]]]; [discriminate H | done | discriminate H].
      * split; [|intros H; apply Hflash; by auto].
        intros H. apply Hflash in H; [|by auto].
        destruct H as [[H _] | [[H _] | [_ H]]]; [discriminate H.. | done].
Qed.

(** ** The account table stays well formed *)

Lemma valid_username_chars s :
  Re.fullmatch username_pattern s = true ->
  Forall (fun c => username_char c = true) s.
Proof.
  intros H%fullmatch_spec. unfold username_pattern, Re.range in H.
  apply matches_cat in H
    as (s1 & s2 & -> & [_ Ha]%matches_power_class & [_ Hb]%matches_upto_class).
  by apply Forall_app.
Qed.

Lemma valid_email_at s : Re.fullmatch email_pattern s = true -> "@"%char ∈ s.
Proof.
  intros H%fullmatch_spec. unfold email_pattern in H.
  apply matches_cat in H as (l & r1 & -> & _ & H).
  apply matches_cat in H as (a & r2 & -> & (c & -> & Hc)%matches_class & _).
  apply bool_decide_eq_true_1 in Hc as ->.
  rewrite elem_of_app. right. by left.
Qed.

Lemma username_char_lower c :
  username_char c = true -> PyStr.lower_char c <> "@"%char.
Proof. destruct c as [[] [] [] [] [] [] [] []]; vm_compute; congruence. Qed.

(** A text that passes the username check, in whatever case, is no
    email that passes the email check. *)
Lemma username_no_email u e :
  Re.fullmatch username_pattern u = true ->
  Re.fullmatch email_pattern e = true ->
  e <> PyStr.lower u.
Proof.
  intros Hu%valid_username_chars He%valid_email_at ->.
  unfold PyStr.lower in He.
  apply list_elem_of_In, in_map_iff in He as (c & Hc & Hin).
  rewrite Forall_forall in Hu. by apply (username_char_lower c); [apply Hu, list_elem_of_In|].
Qed.

Lemma settings_columns accounts current_user avatar_url theme :
  map Account.id (settings accounts current_user avatar_url theme)
  = map Account.id accounts
  /\ map Account.username (settings accounts current_user avatar_url theme)
     = map Account.username accounts
  /\ map Account.email (settings accounts current_user avatar_url theme)
     = map Account.email accounts
  /\ map Account.password_hash (settings accounts current_user avatar_url theme)
     = map Account.password_hash accounts.
Proof.
  unfold settings. rewrite !map_map.
  repeat split; apply map_ext; intros a; by case_bool_decide.
Qed.

(** What an accepted registration has checked and stored. *)
Lemma register_done_inv accounts form password_hash now accounts' user_id :
  register accounts form password_hash now = (accounts', RegisterDone user_id) ->
  let username := PyStr.strip (default [] (reg_username form)) in
  let email := PyStr.lower (PyStr.strip (default [] (reg_email form))) in
  Re.fullmatch username_pattern username = true
  /\ Re.fullmatch email_pattern email = true
  /\ (forall a, a ∈ accounts -> Account.username a <> username)
  /\ (forall a, a ∈ accounts -> Account.email a <> email)
  /\ (user_id ∉ map Account.id accounts)
  /\ accounts'
     = accounts ++ [Account.mk user_id username email password_hash None
                      (chars "system") now].
Proof.
  intros Hreg username email.
  set (password := default [] (reg_password form)).
  pose proof (register_errors_keys accounts username email password) as Hkeys.
  destruct (register_cases accounts form password_hash now)
    as [[Hnil Heq] | [_ Heq]]; rewrite Heq in Hreg; [|done].
  injection Hreg as <- <-.
  cbv zeta in Hnil. fold username email password in Hnil.
  rewrite Hnil in Hkeys. simpl in Hkeys.
  assert (forall k P, k ∈ @nil str <-> P -> ~ P) as Hno
    by (intros k P HP HP'; apply HP in HP'; by apply elem_of_nil in HP').
  pose proof (Hno _ _ (Hkeys (chars "username"))) as Hu.
  pose proof (Hno _ _ (Hkeys (chars "email"))) as He.
  repeat split.
  - destruct (Re.fullmatch username_pattern username); [done|].
    exfalso. apply Hu. left. auto.
  - destruct (Re.fullmatch email_pattern email); [done|].
    exfalso. apply He. right. left. auto.
  - intros a Ha Hn. apply Hu. left. split; [done|]. right.
    apply find_username_Some. by exists a.
  - intros a Ha Hn. apply He. right. left. split; [done|]. right.
    apply find_email_Some. by exists a.
  - intros Hin. apply next_id_fresh in Hin. lia.
Qed.

Lemma register_ok accounts form password_hash now :
  accounts_ok accounts ->
  accounts_ok (register accounts form password_hash now).1.
Proof.
  intros Hok.
  destruct (register accounts form password_hash now)
    as [accounts' [flashes|uid]] eqn:Hreg; simpl.
  - destruct (register_cases accounts form password_hash now)
      as [[_ Heq] | [_ Heq]]; rewrite Heq in Hreg; [done|].
    by injection Hreg as <- _.
  - destruct Hok as (Hid & Hname & Hmail & Hvalid).
    destruct (register_done_inv _ _ _ _ _ _ Hreg)
      as (Hu & He & Hnu & Hne & Hfresh & ->).
    unfold accounts_ok. rewrite !map_app. simpl.
    split; [|split; [|split]].
    + apply NoDup_app. split; [done|]. split; [|apply NoDup_singleton].
      by intros x Hx ->%list_elem_of_singleton.
    + apply NoDup_app. split; [done|]. split; [|apply NoDup_singleton].
      intros x Hx ->%list_elem_of_singleton.
      apply list_elem_of_In, in_map_iff in Hx as (a & Ha & Hin).
      by apply (Hnu a); [apply list_elem_of_In|].
    + apply NoDup_app. split; [done|]. split; [|apply NoDup_singleton].
      intros x Hx ->%list_elem_of_singleton.
      apply list_elem_of_In, in_map_iff in Hx as (a & Ha & Hin).
      by apply (Hne a); [apply list_elem_of_In|].
    + apply Forall_app. split; [done|]. by repeat constructor.
Qed.

(** X24. The handlers keep the account table well formed: after a
    registration, accepted or not, and after a change of settings, ids,
    usernames and emails are still distinct and every stored username and
    email still passes its check; a change of settings changes no id,
    username, email or password hash at all. *)
Theorem accounts_stay_ok accounts :
  accounts_ok accounts ->
  (forall form password_hash now,
     accounts_ok (register accounts form password_hash now).1)
  /\ (forall current_user avatar_url theme,
        let accounts' := settings accounts current_user avatar_url theme in
        accounts_ok accounts'
        /\ map Account.user accounts' = map Account.user accounts
        /\ map Account.password_hash accounts' = map Account.password_hash accounts).
Proof.
  intros Hok. split; [intros; by apply register_ok|].
  intros current_user avatar_url theme accounts'.
  destruct Hok as (Hid & Hname & Hmail & Hvalid).
  destruct (settings_columns accounts current_user avatar_url theme)
    as (Ei & En & Em & Eh).
  fold accounts' in Ei, En, Em, Eh.
  split; [|split; [|done]].
  - unfold accounts_ok. rewrite Ei, En, Em. do 3 (split; [done|]).
    unfold accounts', settings. apply Forall_forall.
    intros a' (a & <- & Ha)%list_elem_of_In%in_map_iff.
    rewrite Forall_forall in Hvalid. apply list_elem_of_In, Hvalid in Ha.
    by case_bool_decide.
  - unfold accounts', settings. rewrite map_map. apply map_ext.
    intros a. by case_bool_decide.
Qed.

Lemma sample_accounts_ok : accounts_ok sample_accounts.
Proof.
  unfold accounts_ok. repeat split; apply (bool_decide_unpack _); by vm_compute.
Qed.

Lemma accounts_stay_ok_witness :
  accounts_ok
    (register sample_accounts
       (mkRegisterForm (Some (chars " carol ")) (Some (chars "Carol@Example.org"))
          (Some (chars "s3cret!")))
       (chars "h:s3cret!") 30).1
  /\ accounts_ok (settings sample_accounts 1 None (Some (chars "dark"))).
Proof.
  destruct (accounts_stay_ok sample_accounts sample_accounts_ok) as [Hr Hs].
  split; [apply Hr | apply (Hs 1 None (Some (chars "dark")))].
Defined.

(** ** Logging in *)

Lemma named_by_unique accounts ident a b :
  accounts_ok accounts ->
  a ∈ accounts -> b ∈ accounts ->
  named_by ident a -> named_by ident b -> a = b.
Proof.
  intros (_ & Hname & Hmail & Hvalid) Ha Hb Hna Hnb.
  rewrite Forall_forall in Hvalid.
  destruct (Hvalid a Ha) as [Hua Hea]. destruct (Hvalid b Hb) as [Hub Heb].
  destruct Hna as [Hna|Hna], Hnb as [Hnb|Hnb].
  - apply (NoDup_map_eq Account.username accounts); [done..|congruence].
  - exfalso. subst ident. by apply (username_no_email _ _ Hua Heb).
  - exfalso. subst ident. by apply (username_no_email _ _ Hub Hea).
  - apply (NoDup_map_eq Account.email accounts); [done..|congruence].
Qed.

(** X25. A login succeeds only as the one account the identifier
    names (by its username as typed or by its email in any case) and only
    with a password that passes the check against the stored hash of that
    account; it fails exactly when no account is named or the password
    fails the check. *)
Theorem login_outcome check_password_hash accounts ident password :
  accounts_ok accounts ->
  let x := PyStr.strip (default [] ident) in
  match login check_password_hash accounts ident password with
  | LoginDone user_id =>
      exists a, a ∈ accounts /\ Account.id a = user_id /\ named_by x a
                /\ check_password_hash (Account.password_hash a)
                     (default [] password) = true
                /\ forall b, b ∈ accounts -> named_by x b -> b = a
  | LoginInvalid =>
      forall a, a ∈ accounts -> named_by x a ->
                check_password_hash (Account.password_hash a)
                  (default [] password) = false
  end.
Proof.
  intros Hok x. unfold login. fold x.
  change (fun a => Account.username a = x \/ Account.email a = PyStr.lower x)
    with (named_by x).
  destruct (head (filter (named_by x) accounts)) as [user|] eqn:E.
  - apply head_Some_elem_of, list_elem_of_filter in E as [Hn Hin].
    destruct (check_password_hash _ _) eqn:Hc.
    + exists user. repeat split; try done.
      intros b Hb Hnb. by apply (named_by_unique accounts x).
    + intros a Ha Hna.
      by rewrite (named_by_unique accounts x a user Hok Ha Hin Hna Hn).
  - apply head_None in E. intros a Ha Hna.
    assert (a ∈ filter (named_by x) accounts) as Hf by (by apply list_elem_of_filter).
    rewrite E in Hf. by apply elem_of_nil in Hf.
Qed.

Lemma login_outcome_witness :
  exists a, a ∈ sample_accounts /\ Account.id a = 2
            /\ named_by (chars "Bob@Example.org") a
            /\ sample_check (Account.password_hash a) (chars "builder") = true
            /\ forall b, b ∈ sample_accounts ->
                         named_by (chars "Bob@Example.org") b -> b = a.
Proof.
  exact (login_outcome sample_check sample_accounts
           (Some (chars " Bob@Example.org ")) (Some (chars "builder"))
           sample_accounts_ok).
Defined.

(** X26. Who has registered can log in: after an accepted
    registration into a well-formed table, a login with the username as
    it was typed, or with the email in any case, and with the same
    password, is answered as the new user, provided the password passes
    the check against the hash that was stored; with a password that fails
    that check, it is turned down. *)
Theorem register_then_login check_password_hash accounts form password_hash now
    accounts' user_id ident :
  accounts_ok accounts ->
  register accounts form password_hash now = (accounts', RegisterDone user_id) ->
  PyStr.strip ident = PyStr.strip (default [] (reg_username form))
  \/ PyStr.lower (PyStr.strip ident)
     = PyStr.lower (PyStr.strip (default [] (reg_email form))) ->
  forall password,
    login check_password_hash accounts' (Some ident) password
    = if check_password_hash password_hash (default [] password)
      then LoginDone user_id else LoginInvalid.
Proof.
  intros Hok Hreg Hident password.
  pose proof (register_ok accounts form password_hash now Hok) as Hok'.
  rewrite Hreg in Hok'. simpl in Hok'.
  destruct (register_done_inv _ _ _ _ _ _ Hreg) as (_ & _ & _ & _ & _ & ->).
  set (new := Account.mk user_id _ _ password_hash None (chars "system") now) in *.
  assert (named_by (PyStr.strip ident) new) as Hnew.
  { destruct Hident as [Hi|Hi]; [left | right]; simpl; congruence. }
  assert (new ∈ accounts ++ [new]) as Hin
    by (apply elem_of_app; right; by left).
  unfold login. simpl.
  change (fun a => Account.username a = PyStr.strip ident
                   \/ Account.email a = PyStr.lower (PyStr.strip ident))
    with (named_by (PyStr.strip ident)).
  destruct (head (filter (named_by (PyStr.strip ident)) (accounts ++ [new])))
    as [user|] eqn:E.
  - apply head_Some_elem_of, list_elem_of_filter in E as [Hn Hu].
    by rewrite (named_by_unique _ _ user new Hok' Hu Hin Hn Hnew).
  - apply head_None in E.
    assert (new ∈ filter (named_by (PyStr.strip ident)) (accounts ++ [new])) as Hf
      by (by apply list_elem_of_filter).
    rewrite E in Hf. by apply elem_of_nil in Hf.
Qed.

Lemma register_then_login_witness :
  let form := mkRegisterForm (Some (chars " carol ")) (Some (chars "Carol@Example.org"))
                (Some (chars "s3cret!")) in
  let accounts' := (register sample_accounts form (chars "h:s3cret!") 30).1 in
  login sample_check accounts' (Some (chars "CAROL@example.ORG")) (Some (chars "s3cret!"))
  = LoginDone 3
  /\ login sample_check accounts' (Some (chars "carol")) (Some (chars "guess"))
     = LoginInvalid.
Proof.
  intros form accounts'.
  split.
  - apply (register_then_login sample_check sample_accounts form (chars "h:s3cret!") 30
             accounts' 3 (chars "CAROL@example.ORG") sample_accounts_ok);
      [reflexivity | right; reflexivity].
  - apply (register_then_login sample_check sample_accounts form (chars "h:s3cret!") 30
             accounts' 3 (chars "carol") sample_accounts_ok);
      [reflexivity | left; reflexivity].
Defined.

(** ** The availability checks and the registration *)

(** The flashes of a registration are its [errors], rendered; an
    accepted one has none. *)
Lemma register_flashes accounts form password_hash now :
  match (register accounts form password_hash now).2 with
  | RegisterInvalid flashes => flashes
  | RegisterDone _ => []
  end
  = map (fun kv => kv.1 ++ chars ": " ++ kv.2)
      (register_errors accounts
         (PyStr.strip (default [] (reg_username form)))
         (PyStr.lower (PyStr.strip (default [] (reg_email form))))
         (default [] (reg_password form))).
Proof.
  destruct (register_cases accounts form password_hash now)
    as [[Hnil ->] | [_ ->]]; simpl; [|done].
  cbv zeta in Hnil. by rewrite Hnil.
Qed.

(** X27. The two availability checks agree with the registration: for
    the same field value, [check_username] answers [available] exactly
    when a registration flashes no message about the username, and
    [check_email] likewise for the email, whatever the other fields are;
    and what is available is valid. *)
Theorem checks_agree_with_register accounts form password_hash now :
  let flashes :=
    match (register accounts form password_hash now).2 with
    | RegisterInvalid flashes => flashes
    | RegisterDone _ => []
    end in
  let '(username_valid, username_available) :=
    check_username accounts (reg_username form) in
  let '(email_valid, email_available) :=
    check_email accounts (reg_email form) in
  (username_available = true <-> ~ flash_for (chars "username") flashes)
  /\ (email_available = true <-> ~ flash_for (chars "email") flashes)
  /\ (username_available = true -> username_valid = true)
  /\ (email_available = true -> email_valid = true).
Proof.
  intros flashes. unfold flashes. rewrite register_flashes.
  unfold check_username, check_email.
  set (username := PyStr.strip (default [] (reg_username form))).
  set (email := PyStr.lower (PyStr.strip (default [] (reg_email form)))).
  set (password := default [] (reg_password form)).
  rewrite !flash_for_key by auto.
  rewrite !register_errors_keys.
  split; [|split; [|split]].
  - rewrite andb_true_iff, bool_decide_eq_true. split.
    + intros [Hv Hf] [[_ [H|[a H]]] | [[H _] | [H _]]];
        [congruence | congruence | discriminate H..].
    + intros Hno. split.
      * destruct (Re.fullmatch username_pattern username); [done|].
        exfalso. apply Hno. left. auto.
      * destruct (find_username accounts username) as [a|] eqn:E; [|done].
        exfalso. apply Hno. left. split; [done|]. right. by exists a.
  - rewrite andb_true_iff, bool_decide_eq_true. split.
    + intros [Hv Hf] [[H _] | [[_ [H|[a H]]] | [H _]]];
        [discriminate H | congruence | congruence | discriminate H].
    + intros Hno. split.
      * destruct (Re.fullmatch email_pattern email); [done|].
        exfalso. apply Hno. right. left. auto.
      * destruct (find_email accounts email) as [a|] eqn:E; [|done].
        exfalso. apply Hno. right. left. split; [done|]. right. by exists a.
  - by intros [Hv _]%andb_true_iff.
  - by intros [Hv _]%andb_true_iff.
Qed.

(** The checks on [sample_accounts]: a free name, a name in use, a
    name too short, and an email in use in another case. *)
Example checks_sample :
  map (fun s => check_username sample_accounts (Some (chars s)))
    [" carol "; "bob"; "Bob"; "al"]%string
  = [(true, true); (true, false); (true, true); (false, false)]
  /\ check_email sample_accounts (Some (chars "BOB@example.org")) = (true, false).
Proof. by vm_compute. Qed.

(** ** Settings *)

Lemma get_user_theme_settings accounts current_user avatar_url theme user_id :
  get_user_theme (settings accounts current_user avatar_url theme) user_id
  = (fun old =>
       if bool_decide (user_id = current_user) then
         match theme with
         | Some t =>
             if bool_decide (t = chars "light") || bool_decide (t = chars "dark")
                || bool_decide (t = chars "system")
             then t else old
         | None => old
         end
       else old) <$> get_user_theme accounts user_id.
Proof.
  unfold get_user_theme, settings.
  rewrite filter_map_commute by (intros a; by case_bool_decide).
  destruct (filter (fun a => Account.id a = user_id) accounts) as [|a l] eqn:E;
    [done|]. simpl.
  assert (Account.id a = user_id) as Ha.
  { assert (a ∈ filter (fun a => Account.id a = user_id) accounts) as Hin
      by (rewrite E; left).
    by apply list_elem_of_filter in Hin as [? _]. }
  rewrite Ha. by repeat case_bool_decide.
Qed.

(** X28. A change of settings sets the theme of the logged-in user to
    the submitted one when it is ["light"], ["dark"] or ["system"], and
    otherwise leaves it as it was; the theme of every other user is
    unchanged; and since a registration stores ["system"], a table in
    which every theme is one of the three stays so under both
    handlers. *)
Theorem settings_theme accounts current_user avatar_url theme :
  let accounts' := settings accounts current_user avatar_url theme in
  let themes_ok (l : list Account.t) :=
    Forall (fun a => valid_theme (Account.theme_preference a)) l in
  (forall t, theme = Some t -> valid_theme t ->
             get_user_theme accounts' current_user
             = (fun _ => t) <$> get_user_theme accounts current_user)
  /\ ((forall t, theme = Some t -> ~ valid_theme t) ->
      get_user_theme accounts' current_user = get_user_theme accounts current_user)
  /\ (forall other, other <> current_user ->
                    get_user_theme accounts' other = get_user_theme accounts other)
  /\ (themes_ok accounts ->
      themes_ok accounts'
      /\ forall form password_hash now,
           themes_ok (register accounts form password_hash now).1).
Proof.
  intros accounts' themes_ok. unfold accounts'.
  split; [|split; [|split]].
  - intros t -> Ht. rewrite get_user_theme_settings.
    rewrite bool_decide_eq_true_2 by done.
    assert (bool_decide (t = chars "light") || bool_decide (t = chars "dark")
            || bool_decide (t = chars "system") = true) as ->; [|done].
    destruct Ht as [-> | [-> | ->]]; by vm_compute.
  - intros Hbad. rewrite get_user_theme_settings.
    rewrite bool_decide_eq_true_2 by done.
    destruct theme as [t|]; [|by destruct (get_user_theme _ _)].
    assert (bool_decide (t = chars "light") || bool_decide (t = chars "dark")
            || bool_decide (t = chars "system") = false) as ->.
    { apply not_true_iff_false. intros H. apply (Hbad t eq_refl).
      unfold valid_theme.
      apply orb_true_iff in H as [H|H]; [apply orb_true_iff in H as [H|H]|];
        apply bool_decide_eq_true_1 in H; auto. }
    by destruct (get_user_theme _ _).
  - intros other Hother. rewrite get_user_theme_settings.
    rewrite bool_decide_eq_false_2 by done. by destruct (get_user_theme _ _).
  - intros Hok. split.
    + unfold themes_ok, settings. apply Forall_forall.
      intros a' (a & <- & Ha)%list_elem_of_In%in_map_iff.
      unfold themes_ok in Hok. rewrite Forall_forall in Hok.
      apply list_elem_of_In, Hok in Ha.
      case_bool_decide; [|done]. cbn [Account.theme_preference].
      destruct theme as [t|]; [|done].
      destruct (bool_decide (t = chars "light") || bool_decide (t = chars "dark")
                || bool_decide (t = chars "system")) eqn:E; [|exact Ha].
      unfold valid_theme.
      apply orb_true_iff in E as [E|E]; [apply orb_true_iff in E as [E|E]|];
        apply bool_decide_eq_true_1 in E; auto.
    + intros form password_hash now.
      destruct (register_cases accounts form password_hash now)
        as [[_ ->] | [_ ->]]; simpl; [|done].
      apply Forall_app. split; [done|]. constructor; [|constructor].
      right. by right.
Qed.

(** Bob switches from ["dark"] to ["light"]; ["sepia"] is not a theme
    and changes nothing; Alice's theme is not touched. *)
Example settings_sample :
  get_user_theme (settings sample_accounts 2 None (Some (chars "light"))) 2
  = Some (chars "light")
  /\ get_user_theme (settings sample_accounts 2 None (Some (chars "sepia"))) 2
     = Some (chars "dark")
  /\ get_user_theme (settings sample_accounts 2 None (Some (chars "light"))) 1
     = Some (chars "system").
Proof. by vm_compute. Qed.
